(** * BeagleG machine-control front end (machine-control.c)

    A shallow embedding of the command-line front end of BeagleG: the
    per-axis parameter parser [parse_float_array], the flag loop and mode
    dispatch of [main], and the two runners [send_file_to_machine] and
    [run_server].

    Conventions of the embedding.
    - A C string is a [string]: the characters before the terminating NUL.
      A pointer into a string is an offset, so [strtod] returns the number
      of characters it consumed ([end - nptr]).
    - A C [float] is modelled by the exact rational value of the literal
      that was read, in lowest terms; rounding to binary32 is not modelled
      and no statement below depends on it.
    - The libc and engine calls whose results the program cannot control
      ([open], [socket], [bind], [accept], the three engine operations)
      are answered by an oracle, the [world]; the calls the program makes
      are recorded, in order, as a list of [event]s.
    - The two service loops may run forever; they are given a bound on the
      number of loop iterations, and a run that uses up the bound is
      reported as still running ([None] for the return value). *)

From Stdlib Require Import ZArith QArith Ascii String Lia.
From stdpp Require Import numbers.
From stdpp Require Import base list strings.

Local Open Scope Z_scope.

(** ** C library: character classes, [strtod], [atof], [atoi] *)

Module Libc.

Definition float : Type := Q.

Definition char_code (c : ascii) : Z := Z.of_N (N_of_ascii c).

(** [isspace] in the C locale: space, \t, \n, \v, \f, \r. *)
Definition isspace (c : ascii) : bool :=
  let n := char_code c in (n =? 32) || ((9 <=? n) && (n <=? 13)).

Definition isdigit (c : ascii) : bool :=
  let n := char_code c in (48 <=? n) && (n <=? 57).

Definition digit_value (c : ascii) : Z := char_code c - 48.

(** [s + n] for a pointer [s] into a string. *)
Fixpoint advance (n : nat) (s : string) : string :=
  match n, s with
  | O, _ => s
  | S n', String _ s' => advance n' s'
  | S _, EmptyString => EmptyString
  end.

(** Number of leading white-space characters. *)
Fixpoint span_space (s : string) : nat :=
  match s with
  | String c s' => if isspace c then S (span_space s') else O
  | EmptyString => O
  end.

(** Reads a run of decimal digits: the value accumulated onto [acc] and
    the number of digits read. *)
Fixpoint scan_digits (s : string) (acc : Z) : Z * nat :=
  match s with
  | String c s' =>
      if isdigit c then
        let '(v, n) := scan_digits s' (10 * acc + digit_value c) in (v, S n)
      else (acc, O)
  | EmptyString => (acc, O)
  end.

(** An optional sign: whether it is a minus, and how many characters it
    takes (0 or 1). *)
Definition scan_sign (s : string) : bool * nat :=
  match s with
  | String "-" _ => (true, 1%nat)
  | String "+" _ => (false, 1%nat)
  | _ => (false, O)
  end.

(** The optional exponent part [e[+-]ddd] of a decimal floating constant;
    an [e] that is not followed by digits is not part of the number. *)
Definition scan_exponent (s : string) : Z * nat :=
  match s with
  | String c s' =>
      if (char_code c =? 101) || (char_code c =? 69) then
        let '(neg, ns) := scan_sign s' in
        let '(e, nd) := scan_digits (advance ns s') 0 in
        match nd with
        | O => (0, O)
        | _ => (if neg then - e else e, (1 + ns + nd)%nat)
        end
      else (0, O)
  | EmptyString => (0, O)
  end.

(** The digits of a decimal floating constant, [ddd], [ddd.ddd], [.ddd] or
    [ddd.]: the digits read as one integer, the number of them after the
    point, and the length. No digit at all: length 0. *)
Definition scan_mantissa (s : string) : Z * nat * nat :=
  let '(ip, n1) := scan_digits s 0 in
  match advance n1 s with
  | String "." s' =>
      let '(m, n2) := scan_digits s' ip in
      match (n1 + n2)%nat with
      | O => (0, O, O)
      | _ => (m, n2, (n1 + 1 + n2)%nat)
      end
  | _ => (ip, O, n1)
  end.

(** [m * 10^e] in lowest terms. *)
Definition scale10 (m e : Z) : float :=
  Qred (if 0 <=? e then inject_Z (m * 10 ^ e)
        else Qmake m (Z.to_pos (10 ^ (- e)))).

(** [strtod(nptr, &end)]: the value and [end - nptr]. Leading white space
    is skipped, then an optional sign and a decimal floating constant are
    read; the longest such prefix is taken. When no conversion can be
    performed the value is zero and [end == nptr]. The hexadecimal,
    INF and NAN forms that C99 also accepts are outside this model. *)
Definition strtod (nptr : string) : float * nat :=
  let nw := span_space nptr in
  let s1 := advance nw nptr in
  let '(neg, ns) := scan_sign s1 in
  let s2 := advance ns s1 in
  let '(m, frac, nm) := scan_mantissa s2 in
  match nm with
  | O => (0%Q, O)
  | _ =>
      let '(e, ne) := scan_exponent (advance nm s2) in
      (scale10 (if neg then - m else m) (e - Z.of_nat frac),
       (nw + ns + nm + ne)%nat)
  end.

(** [atof(s)] is [strtod(s, NULL)]. *)
Definition atof (s : string) : float := fst (strtod s).

Definition INT_MAX : Z := 2147483647.
Definition INT_MIN : Z := -2147483648.

(** [atoi(s)] is [(int) strtol(s, NULL, 10)]: white space, an optional
    sign, decimal digits; 0 when there is no digit. On the 32-bit ARM
    target [long] and [int] have the same width and [strtol] saturates. *)
Definition atoi (s : string) : Z :=
  let s1 := advance (span_space s) s in
  let '(neg, ns) := scan_sign s1 in
  let '(v, _) := scan_digits (advance ns s1) 0 in
  Z.max INT_MIN (Z.min INT_MAX (if neg then - v else v)).

(** [(int) x] for a float [x]: the fractional part is discarded. *)
Definition float_to_int (x : float) : Z := Z.quot (Qnum x) (Zpos (Qden x)).

(** [x <= 0] on floats. *)
Definition float_le_zero (x : float) : bool := Qnum x <=? 0.

End Libc.
Export Libc.

(** ** parse_float_array *)

(** The [for] loop of [parse_float_array]: [todo] iterations remain, [i] is
    the loop counter, [input] the current read pointer. One iteration
    stores the value read by [strtod] into [result[i]]; returns 0 when
    [strtod] consumed nothing ([end == input]); returns [i + 1] when the
    character at [end] is the terminator; and otherwise moves [input] one
    character past [end]. When the counter reaches [count] the function
    returns [count]. *)
Fixpoint parse_loop (todo : nat) (i count : nat) (input : string)
    (result : list float) : nat * list float :=
  match todo with
  | O => (count, result)
  | S todo' =>
      let '(v, consumed) := strtod input in
      let result := <[i := v]> result in
      match consumed with
      | O => (O, result)
      | _ =>
          match String.get consumed input with
          | None => (S i, result)
          | Some _ => parse_loop todo' (S i) count
                        (advance (S consumed) input) result
          end
      end
  end.

(** [parse_float_array(input, result, count)]: the returned count and the
    contents of [result[]] after the call. The caller's array has at least
    [count] elements. *)
Definition parse_float_array (input : string) (result : list float)
    (count : nat) : nat * list float :=
  parse_loop count 0 count input result.

(** ** Configuration and compiled-in defaults *)

(** Modelled from the spec: [enum HomeType], declared in
    gcode-machine-control.h, with the values NONE, ORIGIN and END_OF_RANGE;
    the usage text of machine-control.c numbers them 0 = none, 1 = origin,
    2 = end-of-range. An object of the enumeration is a C [int], and the
    cast in [main] can store any. *)
Definition HOME_POS_NONE : Z := 0.
Definition HOME_POS_ORIGIN : Z := 1.
Definition HOME_POS_END_OF_RANGE : Z := 2.

Definition STDERR_FILENO : Z := 2.

(** Modelled from the spec: [struct MachineControlConfig], declared in
    gcode-machine-control.h, with the fields that [main] assigns. *)
Record MachineControlConfig : Type := mkConfig {
  steps_per_mm : list float;
  max_feedrate : list float;
  acceleration : list float;
  move_range_mm : list float;
  home_switch : list Z;
  speed_factor : float;
  dry_run : bool;
  debug_print : bool;
  synchronous : bool;
  channel_layout : string;
  axis_mapping : string;
}.

Definition set_steps_per_mm (v : list float) (c : MachineControlConfig) :=
  mkConfig v (max_feedrate c) (acceleration c) (move_range_mm c)
    (home_switch c) (speed_factor c) (dry_run c) (debug_print c)
    (synchronous c) (channel_layout c) (axis_mapping c).
Definition set_max_feedrate (v : list float) (c : MachineControlConfig) :=
  mkConfig (steps_per_mm c) v (acceleration c) (move_range_mm c)
    (home_switch c) (speed_factor c) (dry_run c) (debug_print c)
    (synchronous c) (channel_layout c) (axis_mapping c).
Definition set_acceleration (v : list float) (c : MachineControlConfig) :=
  mkConfig (steps_per_mm c) (max_feedrate c) v (move_range_mm c)
    (home_switch c) (speed_factor c) (dry_run c) (debug_print c)
    (synchronous c) (channel_layout c) (axis_mapping c).
Definition set_move_range_mm (v : list float) (c : MachineControlConfig) :=
  mkConfig (steps_per_mm c) (max_feedrate c) (acceleration c) v
    (home_switch c) (speed_factor c) (dry_run c) (debug_print c)
    (synchronous c) (channel_layout c) (axis_mapping c).
Definition set_home_switch (v : list Z) (c : MachineControlConfig) :=
  mkConfig (steps_per_mm c) (max_feedrate c) (acceleration c)
    (move_range_mm c) v (speed_factor c) (dry_run c) (debug_print c)
    (synchronous c) (channel_layout c) (axis_mapping c).
Definition set_speed_factor (v : float) (c : MachineControlConfig) :=
  mkConfig (steps_per_mm c) (max_feedrate c) (acceleration c)
    (move_range_mm c) (home_switch c) v (dry_run c) (debug_print c)
    (synchronous c) (channel_layout c) (axis_mapping c).
Definition set_dry_run (v : bool) (c : MachineControlConfig) :=
  mkConfig (steps_per_mm c) (max_feedrate c) (acceleration c)
    (move_range_mm c) (home_switch c) (speed_factor c) v (debug_print c)
    (synchronous c) (channel_layout c) (axis_mapping c).
Definition set_debug_print (v : bool) (c : MachineControlConfig) :=
  mkConfig (steps_per_mm c) (max_feedrate c) (acceleration c)
    (move_range_mm c) (home_switch c) (speed_factor c) (dry_run c) v
    (synchronous c) (channel_layout c) (axis_mapping c).
Definition set_synchronous (v : bool) (c : MachineControlConfig) :=
  mkConfig (steps_per_mm c) (max_feedrate c) (acceleration c)
    (move_range_mm c) (home_switch c) (speed_factor c) (dry_run c)
    (debug_print c) v (channel_layout c) (axis_mapping c).
Definition set_axis_mapping (v : string) (c : MachineControlConfig) :=
  mkConfig (steps_per_mm c) (max_feedrate c) (acceleration c)
    (move_range_mm c) (home_switch c) (speed_factor c) (dry_run c)
    (debug_print c) (synchronous c) (channel_layout c) v.

(** A C array of [n] elements initialised from a shorter initialiser list:
    the remaining elements are zero. *)
Definition array_init {A} (n : nat) (zero : A) (xs : list A) : list A :=
  xs ++ replicate (n - length xs) zero.

(** The options that [getopt_long] hands to the [switch] of [main], in
    command-line order, each with its [optarg]. [Opt_unknown] stands for
    every return value that no [case] matches. *)
Inductive cli_option : Type :=
  | Opt_f (optarg : string)
  | Opt_m (optarg : string)
  | Opt_a (optarg : string)
  | SET_STEPS_MM (optarg : string)
  | SET_MOTOR_MAPPING (optarg : string)
  | SET_HOME_POS (optarg : string)
  | Opt_r (optarg : string)
  | Opt_n
  | Opt_P
  | Opt_S
  | Opt_R
  | Opt_p (optarg : string)
  | Opt_b (optarg : string)
  | Opt_unknown.

(** The local variables of [main] that the flag loop assigns. *)
Record locals : Type := mkLocals {
  config : MachineControlConfig;
  listen_port : Z;
  do_file_repeat : bool;
  bind_addr : option string;
}.

Definition with_config (f : MachineControlConfig -> MachineControlConfig)
    (l : locals) : locals :=
  mkLocals (f (config l)) (listen_port l) (do_file_repeat l) (bind_addr l).

(** [for (int i = 0; i < GCODE_NUM_AXES; ++i)
      config.home_switch[i] = (enum HomeType) tmp[i];]
    with [todo] iterations remaining. *)
Fixpoint narrow_loop (todo i : nat) (tmp : list float) (home : list Z)
    : list Z :=
  match todo with
  | O => home
  | S todo' =>
      narrow_loop todo' (S i) tmp
        (<[i := float_to_int (default 0%Q (tmp !! i))]> home)
  end.

Section Axes.

(** [GCODE_NUM_AXES] is declared in gcode-parser.h; the initialisers of
    the default tables list seven axes, XYZEABC. *)
Variable GCODE_NUM_AXES : nat.

Definition kMaxFeedrate : list float :=
  array_init GCODE_NUM_AXES 0%Q [200%Q; 200%Q; 90%Q; 10%Q; 1%Q; 0%Q; 0%Q].
Definition kDefaultAccel : list float :=
  array_init GCODE_NUM_AXES 0%Q
    [4000%Q; 4000%Q; 1000%Q; 10000%Q; 1%Q; 0%Q; 0%Q].
Definition kStepsPerMM : list float :=
  array_init GCODE_NUM_AXES 0%Q [160%Q; 160%Q; 160%Q; 40%Q; 1%Q; 0%Q; 0%Q].
Definition kHomePos : list Z :=
  array_init GCODE_NUM_AXES 0
    [HOME_POS_ORIGIN; HOME_POS_ORIGIN; HOME_POS_ORIGIN;
     HOME_POS_NONE; HOME_POS_NONE; HOME_POS_NONE; HOME_POS_NONE].
Definition kMoveRange : list float :=
  array_init GCODE_NUM_AXES 0%Q
    [100%Q; 100%Q; 100%Q; (-1)%Q; (-1)%Q; (-1)%Q; (-1)%Q].
Definition kChannelLayout : string := "23140".
Definition kAxisMapping : string := "XYZEA".

(** The state of [main] when the flag loop starts. *)
Definition initial_locals : locals :=
  {| config :=
       {| steps_per_mm := kStepsPerMM;
          max_feedrate := kMaxFeedrate;
          acceleration := kDefaultAccel;
          move_range_mm := kMoveRange;
          home_switch := kHomePos;
          speed_factor := 1%Q;
          dry_run := false;
          debug_print := false;
          synchronous := false;
          channel_layout := kChannelLayout;
          axis_mapping := kAxisMapping |};
     listen_port := -1;
     do_file_repeat := false;
     bind_addr := None |}.

(** One pass through the [switch]: either [return usage(argv[0], msg)]
    ([inl msg]) or the locals after the [break]. *)
Definition flag_case (l : locals) (opt : cli_option) : string + locals :=
  match opt with
  | Opt_f optarg =>
      let v := atof optarg in
      if float_le_zero v then inl "Speedfactor cannot be <= 0"
      else inr (with_config (set_speed_factor v) l)
  | Opt_m optarg =>
      let '(parse_count, a) :=
        parse_float_array optarg (max_feedrate (config l)) GCODE_NUM_AXES in
      match parse_count with
      | O => inl "max-feedrate missing."
      | _ => inr (with_config (set_max_feedrate a) l)
      end
  | Opt_a optarg =>
      let '(parse_count, a) :=
        parse_float_array optarg (acceleration (config l)) GCODE_NUM_AXES in
      match parse_count with
      | O => inl "Acceleration missing."
      | _ => inr (with_config (set_acceleration a) l)
      end
  | SET_STEPS_MM optarg =>
      let '(parse_count, a) :=
        parse_float_array optarg (steps_per_mm (config l)) GCODE_NUM_AXES in
      match parse_count with
      | O => inl "steps/mm failed to parse."
      | _ => inr (with_config (set_steps_per_mm a) l)
      end
  | SET_MOTOR_MAPPING optarg =>
      inr (with_config (set_axis_mapping optarg) l)
  | SET_HOME_POS optarg =>
      let tmp := replicate GCODE_NUM_AXES 0%Q in
      let '(parse_count, tmp) :=
        parse_float_array optarg tmp GCODE_NUM_AXES in
      match parse_count with
      | O => inl "Failed to parse home switch."
      | _ =>
          inr (with_config
                 (set_home_switch
                    (narrow_loop GCODE_NUM_AXES 0 tmp
                       (home_switch (config l))))
                 l)
      end
  | Opt_r optarg =>
      let '(parse_count, a) :=
        parse_float_array optarg (move_range_mm (config l)) GCODE_NUM_AXES in
      match parse_count with
      | O => inl "Failed to parse ranges."
      | _ => inr (with_config (set_move_range_mm a) l)
      end
  | Opt_n => inr (with_config (set_dry_run true) l)
  | Opt_P => inr (with_config (set_debug_print true) l)
  | Opt_S => inr (with_config (set_synchronous true) l)
  | Opt_R =>
      inr (mkLocals (config l) (listen_port l) true (bind_addr l))
  | Opt_p optarg =>
      inr (mkLocals (config l) (atoi optarg) (do_file_repeat l)
             (bind_addr l))
  | Opt_b optarg =>
      inr (mkLocals (config l) (listen_port l) (do_file_repeat l)
             (Some optarg))
  | Opt_unknown => inl "Unknown flag"
  end.

(** The [while ((opt = getopt_long(...)) != -1)] loop. *)
Fixpoint flag_loop (l : locals) (opts : list cli_option) : string + locals :=
  match opts with
  | [] => inr l
  | opt :: rest =>
      match flag_case l opt with
      | inl msg => inl msg
      | inr l' => flag_loop l' rest
      end
  end.

End Axes.

(** ** The outside world and the record of calls *)

(** What the program does that can be observed from outside, in order. *)
Inductive event : Type :=
  | EvUsage (msg : string)              (* usage(): message and help text *)
  | EvInit (cfg : MachineControlConfig) (r : Z)
                                        (* gcode_machine_control_init *)
  | EvOpen (path : string) (fd : Z)     (* open(path, O_RDONLY) *)
  | EvStreamBegin (input output : Z)    (* gcode_machine_control_from_stream
                                           is entered ... *)
  | EvStreamEnd (r : Z)                 (* ... and returns r *)
  | EvInvalidPort (port : Z)            (* stderr: Invalid port *)
  | EvSocket (s : Z)                    (* socket() *)
  | EvPerror (what : string)            (* perror(what) *)
  | EvInvalidBindAddr (addr : string)   (* stderr: Invalid bind IP address *)
  | EvSetsockopt (s : Z)
  | EvBind (s : Z) (addr : option string) (port : Z) (r : Z)
  | EvIgnoreSigpipe                     (* signal(SIGPIPE, SIG_IGN) *)
  | EvListen (s : Z) (backlog : Z)
  | EvListening (addr : string) (port : Z)   (* stdout: Listening on *)
  | EvAccept (s : Z) (connection : Z)   (* accept() *)
  | EvAccepting                         (* stdout: Accepting new connection *)
  | EvConnectionClosed                  (* stdout: Connection closed *)
  | EvClose (fd : Z)                    (* close() *)
  | EvLastResult (process_result : Z)   (* stderr: Last ... Exiting *)
  | EvExit.                             (* gcode_machine_control_exit *)

(** The answers of the operating system and of the engine. The calls made
    inside a loop are answered by the number of the iteration. *)
Record world : Type := mkWorld {
  w_init : MachineControlConfig -> Z;
  w_open : nat -> Z;
  w_stream : nat -> Z;
  w_socket : Z;
  w_inet_pton : string -> Z;
  w_bind : Z;
  w_accept : nat -> Z;
}.

(** A run: what happened, and the value returned ([None] while the run is
    still going when the iteration bound is used up). *)
Definition run : Type := list event * option Z.

(** ** send_file_to_machine *)

(** The [do { ... } while (do_loop)] loop from its iteration [k] on. *)
Fixpoint send_file_loop (fuel k : nat) (w : world) (gcode_filename : string)
    (do_loop : bool) : run :=
  match fuel with
  | O => ([], None)
  | S fuel' =>
      let fd := w_open w k in
      let r := w_stream w k in
      let evs := [EvOpen gcode_filename fd;
                  EvStreamBegin fd STDERR_FILENO; EvStreamEnd r] in
      if r =? 0 then
        if do_loop then
          let '(tr, ret) :=
            send_file_loop fuel' (S k) w gcode_filename do_loop in
          (evs ++ tr, ret)
        else (evs, Some 0)
      else (evs, Some 1)
  end.

Definition send_file_to_machine (fuel : nat) (w : world)
    (gcode_filename : string) (do_loop : bool) : run :=
  send_file_loop fuel 0 w gcode_filename do_loop.

(** ** run_server *)

(** How the accept loop is left. *)
Inductive loop_end : Type :=
  | StillRunning                      (* iteration bound used up *)
  | Returned (v : Z)                  (* [return v] inside the body *)
  | Exited (process_result : Z).      (* the [while] condition failed *)

(** The [do { ... } while (process_result == 0)] loop of [run_server] from
    its iteration [k] on, on the listening socket [s]. *)
Fixpoint accept_loop (fuel k : nat) (w : world) (s : Z)
    : list event * loop_end :=
  match fuel with
  | O => ([], StillRunning)
  | S fuel' =>
      let connection := w_accept w k in
      if connection <? 0 then
        ([EvAccept s connection; EvPerror "accept"], Returned 1)
      else
        let process_result := w_stream w k in
        let evs := [EvAccept s connection; EvAccepting;
                    EvStreamBegin connection connection;
                    EvStreamEnd process_result; EvConnectionClosed] in
        if process_result =? 0 then
          let '(tr, e) := accept_loop fuel' (S k) w s in (evs ++ tr, e)
        else (evs, Exited process_result)
  end.

(** [bind_addr && !inet_pton(AF_INET, bind_addr, ...)] *)
Definition bad_bind_addr (w : world) (bind_addr : option string) : bool :=
  match bind_addr with
  | Some a => w_inet_pton w a =? 0
  | None => false
  end.

Definition run_server (fuel : nat) (w : world) (bind_addr : option string)
    (port : Z) : run :=
  if 65535 <? port then ([EvInvalidPort port], Some 1)
  else
    let s := w_socket w in
    if s <? 0 then ([EvSocket s; EvPerror "creating socket"], Some 1)
    else if bad_bind_addr w bind_addr then
      ([EvSocket s; EvInvalidBindAddr (default "" bind_addr)], Some 1)
    else
      let setup := [EvSocket s; EvSetsockopt s;
                    EvBind s bind_addr port (w_bind w)] in
      if w_bind w <? 0 then (setup ++ [EvPerror "trouble binding"], Some 1)
      else
        let setup := setup ++ [EvIgnoreSigpipe; EvListen s 2;
                               EvListening (default "0.0.0.0" bind_addr) port]
        in
        match accept_loop fuel 0 w s with
        | (tr, StillRunning) => (setup ++ tr, None)
        | (tr, Returned v) => (setup ++ tr, Some v)
        | (tr, Exited process_result) =>
            (setup ++ tr ++ [EvClose s; EvLastResult process_result], Some 0)
        end.

(** ** main *)

Definition usage (msg : string) : run := ([EvUsage msg], Some 1).

(** The part of [main] behind the flag loop: the checks on the mode, the
    initialisation of the engine, and the runner. [positional] are the
    arguments [argv[optind..]]. *)
Definition main_dispatch (fuel : nat) (w : world) (l : locals)
    (positional : list string) : run :=
  let has_filename : Z := match positional with [] => 0 | _ => 1 end in
  if Z.lxor has_filename (Z.b2z (0 <? listen_port l)) =? 0 then
    usage "Choose one: <gcode-filename> or --port <port>."
  else if (has_filename =? 0) && do_file_repeat l then
    usage "-R (repeat) only makes sense with a filename."
  else
    let r := w_init w (config l) in
    if negb (r =? 0) then ([EvInit (config l) r], Some 1)
    else
      let '(tr, ret) :=
        match positional with
        | filename :: _ =>
            send_file_to_machine fuel w filename (do_file_repeat l)
        | [] => run_server fuel w (bind_addr l) (listen_port l)
        end in
      match ret with
      | Some v => (EvInit (config l) r :: tr ++ [EvExit], Some v)
      | None => (EvInit (config l) r :: tr, None)
      end.

(** [main] after [getopt_long] has split the command line into the options
    [opts] and the remaining arguments. *)
Definition main (GCODE_NUM_AXES : nat) (fuel : nat) (w : world)
    (opts : list cli_option) (positional : list string) : run :=
  match flag_loop GCODE_NUM_AXES (initial_locals GCODE_NUM_AXES) opts with
  | inl msg => usage msg
  | inr l => main_dispatch fuel w l positional
  end.

(** ** Vocabulary of the properties *)

(** [numeric_tokens input vs]: [input] consists of numeric tokens, each of
    them the non-empty numeric prefix that [strtod] reads, separated by
    single delimiter characters, the last one followed by the terminator;
    [vs] are their values, in order. *)
Inductive numeric_tokens : string -> list float -> Prop :=
  | tokens_last input v n :
      strtod input = (v, n) -> n <> O -> String.get n input = None ->
      numeric_tokens input [v]
  | tokens_more input v n d vs :
      strtod input = (v, n) -> n <> O -> String.get n input = Some d ->
      numeric_tokens (advance (S n) input) vs ->
      numeric_tokens input (v :: vs).

(** [leading_tokens k input vs]: [input] starts with [k] numeric tokens,
    each of them followed by a delimiter character; [vs] are their
    values. *)
Inductive leading_tokens : nat -> string -> list float -> Prop :=
  | leading_none input : leading_tokens O input []
  | leading_more input v n d k vs :
      strtod input = (v, n) -> n <> O -> String.get n input = Some d ->
      leading_tokens k (advance (S n) input) vs ->
      leading_tokens (S k) input (v :: vs).

(** [malformed_at i input]: the tokens at positions [0..i-1] are numeric and
    each is followed by a delimiter, and what follows the last delimiter
    has no numeric prefix. *)
Inductive malformed_at : nat -> string -> Prop :=
  | malformed_here input :
      snd (strtod input) = O -> malformed_at O input
  | malformed_later input v n d i :
      strtod input = (v, n) -> n <> O -> String.get n input = Some d ->
      malformed_at i (advance (S n) input) ->
      malformed_at (S i) input.

(** A token that [strtod] reads as a whole. *)
Definition numeric_literal (t : string) : Prop :=
  snd (strtod t) = String.length t /\ t <> "".

(** A string of tokens separated by commas. *)
Fixpoint join_comma (tokens : list string) : string :=
  match tokens with
  | [] => ""
  | [t] => t
  | t :: rest => t +:+ String "," (join_comma rest)
  end.

(** The number of positions that an override list supplies: the count that
    [parse_float_array] returns for it. *)
Definition supplied (GCODE_NUM_AXES : nat) (optarg : string) : nat :=
  fst (parse_float_array optarg (replicate GCODE_NUM_AXES 0%Q)
         GCODE_NUM_AXES).

(** The override lists given for each per-axis array, in command-line
    order. *)
Definition feedrate_lists (opts : list cli_option) : list string :=
  omap (fun o => match o with Opt_m a => Some a | _ => None end) opts.
Definition accel_lists (opts : list cli_option) : list string :=
  omap (fun o => match o with Opt_a a => Some a | _ => None end) opts.
Definition steps_lists (opts : list cli_option) : list string :=
  omap (fun o => match o with SET_STEPS_MM a => Some a | _ => None end) opts.
Definition range_lists (opts : list cli_option) : list string :=
  omap (fun o => match o with Opt_r a => Some a | _ => None end) opts.
Definition home_lists (opts : list cli_option) : list string :=
  omap (fun o => match o with SET_HOME_POS a => Some a | _ => None end) opts.

(** Position [i] is supplied by none of the override lists [args]. *)
Definition not_supplied (GCODE_NUM_AXES : nat) (args : list string)
    (i : nat) : Prop :=
  Forall (fun a => (supplied GCODE_NUM_AXES a <= i)%nat) args.

(** The [optarg]s of the port options, in command-line order, and the
    command line without them. *)
Definition port_args (opts : list cli_option) : list string :=
  omap (fun o => match o with Opt_p a => Some a | _ => None end) opts.
Definition is_port_option (o : cli_option) : bool :=
  match o with Opt_p _ => true | _ => false end.
Definition without_port (opts : list cli_option) : list cli_option :=
  filter (fun o => is_port_option o = false) opts.

(** [listen_port = p;] and the value of [listen_port] after the options
    [opts], starting from [p0]. *)
Definition set_listen_port (p : Z) (l : locals) : locals :=
  mkLocals (config l) p (do_file_repeat l) (bind_addr l).
Definition final_port (p0 : Z) (opts : list cli_option) : Z :=
  fold_left (fun p o => match o with Opt_p a => atoi a | _ => p end) opts p0.

(** Counting calls in a record of events. *)
Definition is_stream_begin (e : event) : bool :=
  match e with EvStreamBegin _ _ => true | _ => false end.
Definition is_stream_end (e : event) : bool :=
  match e with EvStreamEnd _ => true | _ => false end.
Definition is_open (e : event) : bool :=
  match e with EvOpen _ _ => true | _ => false end.
Definition is_accept (e : event) : bool :=
  match e with EvAccept _ _ => true | _ => false end.

Definition count_events (p : event -> bool) (tr : list event) : nat :=
  length (filter (fun e => p e = true) tr).

(** The number of engine stream calls that have been entered and have not
    returned yet at the end of [tr]: the sessions being served. *)
Definition serving (tr : list event) : Z :=
  Z.of_nat (count_events is_stream_begin tr)
  - Z.of_nat (count_events is_stream_end tr).

(** What an event adds to the number of sessions being served. *)
Definition delta (e : event) : Z :=
  if is_stream_begin e then 1 else if is_stream_end e then -1 else 0.

(** Starting with [base] sessions being served, the number stays between
    0 and 1 at every point of [tr]. *)
Definition bounded (base : Z) (tr : list event) : Prop :=
  forall p, p `prefix_of` tr -> 0 <= base + serving p <= 1.

(** At most one session is being served at any point of [tr]. *)
Definition serialized (tr : list event) : Prop := bounded 0 tr.

(** Events that neither enter nor leave a stream call. *)
Definition quiet (tr : list event) : Prop := Forall (fun e => delta e = 0) tr.

(** What [run_server] does before its loop when every step succeeds, and
    what it does and returns after the loop, by the way the loop ended. *)
Definition setup_events (w : world) (bind_addr : option string) (port : Z)
    : list event :=
  [EvSocket (w_socket w); EvSetsockopt (w_socket w);
   EvBind (w_socket w) bind_addr port (w_bind w);
   EvIgnoreSigpipe; EvListen (w_socket w) 2;
   EvListening (default "0.0.0.0" bind_addr) port].
Definition closing_events (s : Z) (e : loop_end) : list event :=
  match e with
  | Exited process_result => [EvClose s; EvLastResult process_result]
  | _ => []
  end.
Definition loop_result (e : loop_end) : option Z :=
  match e with
  | StillRunning => None
  | Returned v => Some v
  | Exited _ => Some 0
  end.


Definition mapping_args (opts : list cli_option) : list string :=
  omap (fun o => match o with SET_MOTOR_MAPPING a => Some a | _ => None end)
    opts.
Definition bind_args (opts : list cli_option) : list string :=
  omap (fun o => match o with Opt_b a => Some a | _ => None end) opts.

(** More kinds of events. *)
Definition is_usage (e : event) : bool :=
  match e with EvUsage _ => true | _ => false end.
Definition is_init (e : event) : bool :=
  match e with EvInit _ _ => true | _ => false end.
Definition is_socket (e : event) : bool :=
  match e with EvSocket _ => true | _ => false end.
Definition is_close (e : event) : bool :=
  match e with EvClose _ => true | _ => false end.
Definition is_exit (e : event) : bool :=
  match e with EvExit => true | _ => false end.

(** The setup of [run_server] succeeds: the port is in range, the socket is
    created, the bind address is accepted and the socket is bound. *)
Definition setup_ok (w : world) (bind_addr : option string) (port : Z)
    : bool :=
  negb (65535 <? port) && negb (w_socket w <? 0)
  && negb (bad_bind_addr w bind_addr) && negb (w_bind w <? 0).

(** The events that [send_file_to_machine] produces for the file [f], and
    the events that [run_server] produces on the listening socket [s]. *)
Definition file_event (f : string) (e : event) : Prop :=
  match e with
  | EvOpen path _ => path = f
  | EvStreamBegin _ output => output = STDERR_FILENO
  | EvStreamEnd _ => True
  | _ => False
  end.
Definition server_event (s : Z) (e : event) : Prop :=
  match e with
  | EvUsage _ | EvInit _ _ | EvOpen _ _ | EvExit => False
  | EvStreamBegin input output => input = output /\ 0 <= input
  | EvAccept s' _ | EvClose s' | EvListen s' _ | EvSetsockopt s'
  | EvBind s' _ _ _ | EvSocket s' => s' = s
  | _ => True
  end.

(** A world for the examples: every system call succeeds, descriptors are
    handed out from 3, and the engine answers [stream k] to its [k]-th
    stream call. *)
Definition example_world (stream : nat -> Z) : world :=
  {| w_init := fun _ => 0;
     w_open := fun _ => 3;
     w_stream := stream;
     w_socket := 3;
     w_inet_pton := fun _ => 1;
     w_bind := 0;
     w_accept := fun _ => 4 |}.

(** * Properties *)

(** ** strtod *)

Example strtod_ex1 : strtod "1,2,3" = (1%Q, 1%nat).
Proof. reflexivity. Qed.
Example strtod_ex2 : strtod " -12.50e1x" = (Qmake (-125) 1, 9%nat).
Proof. vm_compute. reflexivity. Qed.
Example strtod_ex3 : strtod "x" = (0%Q, 0%nat).
Proof. reflexivity. Qed.
Example atoi_ex : atoi "8000" = 8000 /\ atoi " -3x" = -3 /\ atoi "abc" = 0.
Proof. repeat split; reflexivity. Qed.

(** A call that converts nothing returns zero. *)
Lemma strtod_no_conversion input v : strtod input = (v, O) -> v = 0%Q.
Proof.
  unfold strtod.
  destruct (scan_sign _) as [neg ns].
  destruct (scan_mantissa _) as [[m frac] nm].
  destruct nm as [|nm]; [congruence|].
  destruct (scan_exponent _) as [e ne].
  intros [= _ Hn]. lia.
Qed.

Lemma strtod_zero_consumed input :
  snd (strtod input) = O -> strtod input = (0%Q, O).
Proof.
  destruct (strtod input) as [v n] eqn:E; simpl; intros ->.
  by rewrite (strtod_no_conversion _ _ E).
Qed.

(** ** parse_float_array *)

Example pfa_ex1 :
  parse_float_array "1,2,3" [9%Q; 9%Q; 9%Q; 8%Q; 7%Q] 5
  = (3%nat, [1%Q; 2%Q; 3%Q; 8%Q; 7%Q]).
Proof. vm_compute. reflexivity. Qed.
Example pfa_ex2 :
  parse_float_array "1,x,3" [9%Q; 9%Q; 9%Q] 3 = (0%nat, [1%Q; 0%Q; 9%Q]).
Proof. vm_compute. reflexivity. Qed.
Example pfa_ex3 :
  parse_float_array "1,2,3,x" [9%Q; 9%Q; 9%Q] 3 = (3%nat, [1%Q; 2%Q; 3%Q]).
Proof. vm_compute. reflexivity. Qed.

(** One unfolding of the loop, by the three ways an iteration can go. *)
Lemma parse_loop_fail todo i count input result :
  snd (strtod input) = O ->
  parse_loop (S todo) i count input result = (O, <[i := 0%Q]> result).
Proof. intros H. simpl. by rewrite (strtod_zero_consumed _ H). Qed.

Lemma parse_loop_end todo i count input result v n :
  strtod input = (v, n) -> n <> O -> String.get n input = None ->
  parse_loop (S todo) i count input result = (S i, <[i := v]> result).
Proof. intros E Hn Hg. simpl. rewrite E, Hg. by destruct n. Qed.

Lemma parse_loop_next todo i count input result v n d :
  strtod input = (v, n) -> n <> O -> String.get n input = Some d ->
  parse_loop (S todo) i count input result
  = parse_loop todo (S i) count (advance (S n) input) (<[i := v]> result).
Proof. intros E Hn Hg. simpl. rewrite E, Hg. by destruct n. Qed.

(** The array keeps its length, whatever the input. *)
Lemma parse_loop_length todo : forall i count input result,
  length (snd (parse_loop todo i count input result)) = length result.
Proof.
  induction todo as [|todo IH]; intros i count input result; [done|].
  simpl. destruct (strtod input) as [v n].
  destruct n as [|n]; simpl; [by rewrite length_insert|].
  destruct (String.get _ _); simpl; [|by rewrite length_insert].
  by rewrite IH, length_insert.
Qed.

(** The positions below the loop counter are not written. *)
Lemma parse_loop_below todo : forall i count input result j,
  (j < i)%nat ->
  snd (parse_loop todo i count input result) !! j = result !! j.
Proof.
  induction todo as [|todo IH]; intros i count input result j Hj; [done|].
  simpl. destruct (strtod input) as [v n].
  destruct n as [|n]; simpl.
  { apply list_lookup_insert_ne; lia. }
  destruct (String.get _ _); simpl.
  - rewrite IH by lia. apply list_lookup_insert_ne; lia.
  - apply list_lookup_insert_ne; lia.
Qed.

(** The count that is returned does not depend on what the array holds. *)
Lemma parse_loop_count_indep todo : forall i count input r1 r2,
  fst (parse_loop todo i count input r1)
  = fst (parse_loop todo i count input r2).
Proof.
  induction todo as [|todo IH]; intros i count input r1 r2; [done|].
  simpl. destruct (strtod input) as [v n].
  destruct n as [|n]; [done|].
  destruct (String.get _ _); [apply IH | done].
Qed.

(** A non-zero count is at most [count], and the positions from it on are
    not written. *)
Lemma parse_loop_success todo : forall i count input result c r,
  count = (i + todo)%nat ->
  parse_loop todo i count input result = (c, r) -> c <> O ->
  (i <= c <= count)%nat /\ (todo <> O -> i < c)%nat
  /\ forall j, (c <= j)%nat -> r !! j = result !! j.
Proof.
  induction todo as [|todo IH]; intros i count input result c r Hc E Hne.
  { simpl in E. injection E as <- <-. split; [lia|]. split; [done|done]. }
  simpl in E. destruct (strtod input) as [v n].
  destruct n as [|n]; [injection E as <- <-; done|].
  destruct (String.get _ _).
  - apply IH in E as (H1 & H2 & H3); [|lia|done].
    split; [lia|]. split; [lia|].
    intros j Hj. rewrite H3 by done. apply list_lookup_insert_ne. lia.
  - injection E as <- <-. split; [lia|]. split; [lia|].
    intros j Hj. apply list_lookup_insert_ne. lia.
Qed.

Lemma parse_loop_tokens input vs :
  numeric_tokens input vs ->
  forall todo i count result,
    (length vs <= todo)%nat -> (i + length vs <= length result)%nat ->
    parse_loop todo i count input result
    = ((i + length vs)%nat,
       take i result ++ vs ++ drop (i + length vs) result).
Proof.
  induction 1 as [input v n E Hn Hg | input v n d vs E Hn Hg _ IH];
    intros todo i count result Htodo Hlen; simpl in Htodo, Hlen.
  - destruct todo as [|todo]; [lia|].
    rewrite (parse_loop_end _ _ _ _ _ _ _ E Hn Hg).
    rewrite insert_take_drop by lia.
    simpl. repeat f_equal; lia.
  - destruct todo as [|todo]; [lia|].
    rewrite (parse_loop_next _ _ _ _ _ _ _ _ E Hn Hg).
    rewrite IH by (rewrite ?length_insert; lia).
    simpl length. f_equal; [lia|].
    rewrite drop_insert_lt by lia.
    rewrite (take_S_r _ _ v) by (apply list_lookup_insert_eq; lia).
    rewrite take_insert_ge by lia.
    rewrite <- app_assoc. simpl.
    repeat f_equal; lia.
Qed.

(** When each of the [count] positions finds a token that is followed by
    a delimiter, the loop runs to its end and [count] is returned. *)
Lemma parse_loop_full todo input vs :
  leading_tokens todo input vs ->
  forall i count result,
    count = (i + todo)%nat -> (count <= length result)%nat ->
    parse_loop todo i count input result
    = (count, take i result ++ vs ++ drop count result).
Proof.
  induction 1 as [input | input v n d k vs E Hn Hg _ IH];
    intros i count result Hc Hlen.
  - simpl. rewrite Hc, Nat.add_0_r. by rewrite take_drop.
  - rewrite (parse_loop_next _ _ _ _ _ _ _ _ E Hn Hg).
    rewrite IH by (rewrite ?length_insert; lia).
    f_equal.
    rewrite drop_insert_lt by lia.
    rewrite (take_S_r _ _ v) by (apply list_lookup_insert_eq; lia).
    rewrite take_insert_ge by lia.
    by rewrite <- app_assoc.
Qed.

Lemma parse_loop_malformed i input :
  malformed_at i input ->
  forall todo j count result,
    (i < todo)%nat -> fst (parse_loop todo j count input result) = O.
Proof.
  induction 1 as [input E | input v n d i E Hn Hg _ IH];
    intros todo j count result Htodo.
  - destruct todo as [|todo]; [lia|]. by rewrite parse_loop_fail.
  - destruct todo as [|todo]; [lia|].
    rewrite (parse_loop_next _ _ _ _ _ _ _ _ E Hn Hg).
    apply IH. lia.
Qed.

(** C3, as the specification states it, fails: when the first token has no
    numeric prefix the call returns 0, but it has already stored the zero
    that [strtod] returned into position 0. *)
Lemma parse_failure_modifies_result :
  ~ (forall input result count,
       snd (strtod input) = O ->
       parse_float_array input result count = (O, result)).
Proof.
  intros H.
  specialize (H "x" [200%Q; 200%Q; 90%Q; 10%Q; 1%Q; 0%Q; 0%Q] 7%nat eq_refl).
  vm_compute in H. discriminate H.
Qed.

(** C3 (amended): for every input string whose first token has no numeric
    prefix, [parse_float_array] returns 0 and leaves every position of the
    destination array other than position 0 unmodified; position 0 is
    overwritten with zero when the capacity is not zero. *)
Theorem parse_failure_at_first_token input result count :
  snd (strtod input) = O ->
  fst (parse_float_array input result count) = O
  /\ (forall j, (0 < j)%nat ->
        snd (parse_float_array input result count) !! j = result !! j)
  /\ ((0 < count)%nat -> (0 < length result)%nat ->
        snd (parse_float_array input result count) !! O = Some 0%Q).
Proof.
  intros H. unfold parse_float_array.
  destruct count as [|count].
  { simpl. split; [done|]. split; [done|lia]. }
  rewrite parse_loop_fail by done. simpl.
  split; [done|]. split.
  - intros j Hj. apply list_lookup_insert_ne. lia.
  - intros _ Hlen. by apply list_lookup_insert_eq.
Qed.

Lemma parse_failure_at_first_token_witness :
  snd (strtod "x") = O
  /\ fst (parse_float_array "x" [200%Q; 200%Q; 90%Q] 3) = O
  /\ snd (parse_float_array "x" [200%Q; 200%Q; 90%Q] 3) !! 1%nat
     = Some 200%Q
  /\ snd (parse_float_array "x" [200%Q; 200%Q; 90%Q] 3) !! O = Some 0%Q.
Proof.
  split; [reflexivity|].
  destruct (parse_failure_at_first_token "x" [200%Q; 200%Q; 90%Q] 3 eq_refl)
    as (H1 & H2 & H3).
  split; [exact H1|]. split.
  - rewrite H2 by lia. reflexivity.
  - apply H3; simpl; lia.
Defined.

(** C7: for every input string that consists of [k <= N] well-formed,
    delimiter-separated numeric tokens, [parse_float_array] returns exactly
    [k], writes the [k] parsed values in order into positions [0..k-1], and
    leaves positions [k..N-1] (and everything behind them) as they were
    before the call. The count is [i + 1] when the terminator follows token
    [i]; it is [N] when all [N] positions are consumed and each of the [N]
    tokens is followed by a delimiter. *)
Theorem parse_float_array_tokens input vs result count :
  (count <= length result)%nat ->
  (numeric_tokens input vs -> (length vs <= count)%nat ->
   parse_float_array input result count
   = (length vs, vs ++ drop (length vs) result))
  /\ (leading_tokens count input vs ->
      parse_float_array input result count
      = (count, vs ++ drop count result)).
Proof.
  intros Hlen. unfold parse_float_array. split.
  - intros Htok Hk.
    rewrite (parse_loop_tokens _ _ Htok) by (simpl; lia).
    reflexivity.
  - intros Htok.
    by rewrite (parse_loop_full _ _ _ Htok 0 count result).
Qed.

(** C8: for every input string with a malformed token at a position [i] of
    the array (in particular [0 < i], after one or more tokens were parsed),
    [parse_float_array] returns 0. *)
Theorem parse_float_array_malformed i input result count :
  malformed_at i input -> (i < count)%nat ->
  fst (parse_float_array input result count) = O.
Proof.
  intros Hm Hi. unfold parse_float_array.
  by apply (parse_loop_malformed _ _ Hm).
Qed.

(** Builds a [numeric_tokens] derivation for a literal string. *)
Ltac tokens :=
  repeat (first
    [ eapply tokens_last; [vm_compute; reflexivity | done | reflexivity]
    | eapply tokens_more;
        [vm_compute; reflexivity | done | reflexivity | simpl advance] ]).

Lemma parse_float_array_tokens_witness :
  numeric_tokens "1,2,3" [1%Q; 2%Q; 3%Q]
  /\ parse_float_array "1,2,3" [9%Q; 9%Q; 9%Q; 8%Q; 7%Q] 5
     = (3%nat, [1%Q; 2%Q; 3%Q; 8%Q; 7%Q])
  /\ parse_float_array "1,2,3,4" [9%Q; 9%Q; 9%Q; 8%Q; 7%Q] 3
     = (3%nat, [1%Q; 2%Q; 3%Q; 8%Q; 7%Q]).
Proof.
  assert (H : numeric_tokens "1,2,3" [1%Q; 2%Q; 3%Q]) by tokens.
  assert (H' : leading_tokens 3 "1,2,3,4" [1%Q; 2%Q; 3%Q]).
  { repeat (eapply leading_more;
              [vm_compute; reflexivity | done | reflexivity | simpl advance]).
    apply leading_none. }
  assert (H5 : (5 <= length [9%Q; 9%Q; 9%Q; 8%Q; 7%Q])%nat) by (simpl; lia).
  assert (H3 : (3 <= length [9%Q; 9%Q; 9%Q; 8%Q; 7%Q])%nat) by (simpl; lia).
  split; [exact H|]. split.
  - apply (parse_float_array_tokens "1,2,3" [1%Q; 2%Q; 3%Q]
             [9%Q; 9%Q; 9%Q; 8%Q; 7%Q] 5 H5); [exact H | simpl; lia].
  - apply (parse_float_array_tokens "1,2,3,4" [1%Q; 2%Q; 3%Q]
             [9%Q; 9%Q; 9%Q; 8%Q; 7%Q] 3 H3). exact H'.
Defined.

Lemma parse_float_array_malformed_witness :
  malformed_at 1 "1,x,3"
  /\ fst (parse_float_array "1,x,3" [9%Q; 9%Q; 9%Q] 3) = O.
Proof.
  assert (H : malformed_at 1 "1,x,3").
  { eapply malformed_later;
      [vm_compute; reflexivity | done | reflexivity | simpl advance].
    apply malformed_here. reflexivity. }
  split; [exact H|].
  apply (parse_float_array_malformed 1 "1,x,3" [9%Q; 9%Q; 9%Q] 3 H). lia.
Defined.

(** ** The flag loop: defaults and overrides *)

Lemma supplied_eq N input result :
  supplied N input = fst (parse_float_array input result N).
Proof. unfold supplied, parse_float_array. apply parse_loop_count_indep. Qed.

(** A successful call leaves the positions that the list does not supply
    as they were. *)
Lemma parse_float_array_keeps N input result c r j :
  parse_float_array input result N = (c, r) -> c <> O ->
  (supplied N input <= j)%nat -> r !! j = result !! j.
Proof.
  intros E Hc Hj. rewrite (supplied_eq _ _ result), E in Hj. simpl in Hj.
  unfold parse_float_array in E.
  destruct (parse_loop_success N 0 N input result c r eq_refl E Hc)
    as (_ & _ & H).
  by apply H.
Qed.

Lemma parse_float_array_length N input result :
  length (snd (parse_float_array input result N)) = length result.
Proof. apply parse_loop_length. Qed.

Lemma array_init_length {A} n (zero : A) xs :
  (n <= length (array_init n zero xs))%nat.
Proof. unfold array_init. rewrite length_app, length_replicate. lia. Qed.

Lemma narrow_loop_length todo : forall i tmp home,
  length (narrow_loop todo i tmp home) = length home.
Proof.
  induction todo as [|todo IH]; intros i tmp home; [done|].
  simpl. by rewrite IH, length_insert.
Qed.

Lemma narrow_loop_lookup todo : forall i tmp home j,
  (j < length home)%nat ->
  narrow_loop todo i tmp home !! j
  = if decide (i <= j < i + todo)%nat
    then Some (float_to_int (default 0%Q (tmp !! j)))
    else home !! j.
Proof.
  induction todo as [|todo IH]; intros i tmp home j Hj; simpl.
  { case_decide; [lia|done]. }
  rewrite IH by (by rewrite length_insert).
  destruct (decide (j = i)) as [->|Hne].
  - rewrite list_lookup_insert_eq by done.
    repeat case_decide; try lia; done.
  - rewrite list_lookup_insert_ne by done.
    repeat case_decide; try lia; done.
Qed.

Section Field.

(** One per-axis float array of the configuration, [field], and the option
    that overrides it, [select]. *)
Variable N : nat.
Variable field : MachineControlConfig -> list float.
Variable select : cli_option -> option string.
Variable i : nat.

Hypothesis case_keeps : forall l opt l',
  flag_case N l opt = inr l' ->
  not_supplied N (omap select [opt]) i ->
  field (config l') !! i = field (config l) !! i.

Lemma flag_loop_keeps : forall opts l l',
  flag_loop N l opts = inr l' ->
  not_supplied N (omap select opts) i ->
  field (config l') !! i = field (config l) !! i.
Proof using case_keeps.
  induction opts as [|opt opts IH]; intros l l' E Hns; simpl in E.
  { by injection E as <-. }
  destruct (flag_case N l opt) as [msg|l1] eqn:E1; [done|].
  change (opt :: opts) with ([opt] ++ opts) in Hns.
  unfold not_supplied in Hns. rewrite omap_app in Hns.
  apply Forall_app in Hns as [H1 H2].
  rewrite (IH _ _ E H2). exact (case_keeps _ _ _ E1 H1).
Qed.

End Field.

(** Destructs the [switch] for one option after it has succeeded. *)
Ltac flag_cases E :=
  unfold flag_case in E;
  repeat case_match; simplify_eq; simpl in *; try done.

Lemma flag_case_steps N i l opt l' :
  flag_case N l opt = inr l' ->
  not_supplied N (steps_lists [opt]) i ->
  steps_per_mm (config l') !! i = steps_per_mm (config l) !! i.
Proof.
  intros E Hns. flag_cases E.
  eapply parse_float_array_keeps; [done|done|]. by inversion Hns.
Qed.

Lemma flag_case_feedrate N i l opt l' :
  flag_case N l opt = inr l' ->
  not_supplied N (feedrate_lists [opt]) i ->
  max_feedrate (config l') !! i = max_feedrate (config l) !! i.
Proof.
  intros E Hns. flag_cases E.
  eapply parse_float_array_keeps; [done|done|]. by inversion Hns.
Qed.

Lemma flag_case_accel N i l opt l' :
  flag_case N l opt = inr l' ->
  not_supplied N (accel_lists [opt]) i ->
  acceleration (config l') !! i = acceleration (config l) !! i.
Proof.
  intros E Hns. flag_cases E.
  eapply parse_float_array_keeps; [done|done|]. by inversion Hns.
Qed.

Lemma flag_case_range N i l opt l' :
  flag_case N l opt = inr l' ->
  not_supplied N (range_lists [opt]) i ->
  move_range_mm (config l') !! i = move_range_mm (config l) !! i.
Proof.
  intros E Hns. flag_cases E.
  eapply parse_float_array_keeps; [done|done|]. by inversion Hns.
Qed.

(** The home-switch array keeps its length through the flag loop. *)
Lemma flag_case_home_length N l opt l' :
  flag_case N l opt = inr l' ->
  length (home_switch (config l')) = length (home_switch (config l)).
Proof. intros E. flag_cases E. apply narrow_loop_length. Qed.

(** Every option but [--home-pos] leaves the home switches alone. *)
Lemma flag_case_home_other N l opt l' :
  flag_case N l opt = inr l' -> home_lists [opt] = [] ->
  home_switch (config l') = home_switch (config l).
Proof. intros E Hh. flag_cases E. Qed.

(** [--home-pos] rewrites all [N] positions: the ones that its list does
    not supply are read from the zeroed temporary. *)
Lemma flag_case_home_pos N l optarg l' i :
  flag_case N l (SET_HOME_POS optarg) = inr l' ->
  (N <= length (home_switch (config l)))%nat ->
  (i < N)%nat -> (supplied N optarg <= i)%nat ->
  home_switch (config l') !! i = Some HOME_POS_NONE.
Proof.
  intros E Hlen Hi Hs. flag_cases E.
  rewrite narrow_loop_lookup by lia.
  case_decide; [|lia].
  erewrite parse_float_array_keeps; [|done|done|done].
  rewrite lookup_replicate_2 by done. reflexivity.
Qed.

Lemma flag_loop_home N : forall opts l l',
  flag_loop N l opts = inr l' ->
  (N <= length (home_switch (config l)))%nat ->
  match last (home_lists opts) with
  | None => home_switch (config l') = home_switch (config l)
  | Some optarg =>
      forall i, (i < N)%nat -> (supplied N optarg <= i)%nat ->
                home_switch (config l') !! i = Some HOME_POS_NONE
  end.
Proof.
  induction opts as [|opt opts IH]; intros l l' E Hlen; simpl in E.
  { by injection E as <-. }
  destruct (flag_case N l opt) as [msg|l1] eqn:E1; [done|].
  specialize (IH _ _ E).
  rewrite (flag_case_home_length _ _ _ _ E1) in IH.
  specialize (IH Hlen).
  change (opt :: opts) with ([opt] ++ opts).
  unfold home_lists in *. rewrite omap_app, last_app.
  destruct (last (omap _ opts)) as [a|]; [exact IH|].
  rewrite IH.
  destruct opt; simpl;
    try (by apply (flag_case_home_other _ _ _ _ E1)).
  intros i Hi Hs. by apply (flag_case_home_pos _ _ _ _ _ E1).
Qed.

(** C2, as the specification states it, fails for [home_switch]: after
    [--home-pos 2] the positions 1 and 2, which the list does not supply,
    hold HOME_POS_NONE and not their default HOME_POS_ORIGIN. *)
Lemma home_switch_defaults_lost :
  ~ (forall N opts l i,
       flag_loop N (initial_locals N) opts = inr l -> (i < N)%nat ->
       (not_supplied N (steps_lists opts) i ->
        steps_per_mm (config l) !! i = kStepsPerMM N !! i)
       /\ (not_supplied N (feedrate_lists opts) i ->
           max_feedrate (config l) !! i = kMaxFeedrate N !! i)
       /\ (not_supplied N (accel_lists opts) i ->
           acceleration (config l) !! i = kDefaultAccel N !! i)
       /\ (not_supplied N (range_lists opts) i ->
           move_range_mm (config l) !! i = kMoveRange N !! i)
       /\ (not_supplied N (home_lists opts) i ->
           home_switch (config l) !! i = kHomePos N !! i)).
Proof.
  intros H.
  destruct (flag_loop 7 (initial_locals 7) [SET_HOME_POS "2"])
    as [msg|l] eqn:E; [by vm_compute in E|].
  destruct (H 7%nat [SET_HOME_POS "2"] l 1%nat E) as (_ & _ & _ & _ & Hh);
    [lia|].
  vm_compute in E. injection E as <-.
  assert (Hn : not_supplied 7 (home_lists [SET_HOME_POS "2"]) 1).
  { repeat constructor. }
  specialize (Hh Hn). vm_compute in Hh. discriminate Hh.
Qed.

(** What [--home-pos] does to the positions that its list does not supply:
    after the last such option they hold HOME_POS_NONE. *)
Lemma home_pos_rewrites_all N opts l optarg i :
  flag_loop N (initial_locals N) opts = inr l -> (i < N)%nat ->
  last (home_lists opts) = Some optarg -> (supplied N optarg <= i)%nat ->
  home_switch (config l) !! i = Some HOME_POS_NONE.
Proof.
  intros E Hi Hl Hs. pose proof (flag_loop_home N _ _ _ E) as Hh.
  rewrite Hl in Hh. apply Hh; [apply array_init_length|done|done].
Qed.

(** C2 (amended): after flag processing has completed successfully, every
    position of the four per-axis float arrays (steps_per_mm, max_feedrate,
    acceleration, move_range_mm) that no flag supplied still holds its
    compiled-in default, so an override list with fewer than N tokens leaves
    the remaining positions at their defaults; home_switch holds its
    compiled-in defaults when no --home-pos flag was given. *)
Theorem defaults_kept N opts l i :
  flag_loop N (initial_locals N) opts = inr l ->
  (not_supplied N (steps_lists opts) i ->
   steps_per_mm (config l) !! i = kStepsPerMM N !! i)
  /\ (not_supplied N (feedrate_lists opts) i ->
      max_feedrate (config l) !! i = kMaxFeedrate N !! i)
  /\ (not_supplied N (accel_lists opts) i ->
      acceleration (config l) !! i = kDefaultAccel N !! i)
  /\ (not_supplied N (range_lists opts) i ->
      move_range_mm (config l) !! i = kMoveRange N !! i)
  /\ (home_lists opts = [] -> home_switch (config l) = kHomePos N).
Proof.
  intros E. repeat split.
  - intros H.
    exact (flag_loop_keeps N steps_per_mm _ i (flag_case_steps N i) _ _ _ E H).
  - intros H.
    exact (flag_loop_keeps N max_feedrate _ i (flag_case_feedrate N i)
             _ _ _ E H).
  - intros H.
    exact (flag_loop_keeps N acceleration _ i (flag_case_accel N i) _ _ _ E H).
  - intros H.
    exact (flag_loop_keeps N move_range_mm _ i (flag_case_range N i)
             _ _ _ E H).
  - intros H. pose proof (flag_loop_home N _ _ _ E) as Hh.
    rewrite H in Hh. apply Hh. apply array_init_length.
Qed.

Lemma defaults_kept_witness :
  exists l,
    flag_loop 7 (initial_locals 7) [Opt_m "300,250"; Opt_n] = inr l
    /\ max_feedrate (config l) !! 2%nat = Some 90%Q
    /\ home_switch (config l) = [1; 1; 1; 0; 0; 0; 0].
Proof.
  destruct (flag_loop 7 (initial_locals 7) [Opt_m "300,250"; Opt_n])
    as [msg|l] eqn:E.
  { vm_compute in E. discriminate E. }
  exists l. split; [reflexivity|].
  destruct (defaults_kept 7 _ l 2 E) as (_ & Hf & _ & _ & Hh).
  split.
  - transitivity (kMaxFeedrate 7 !! 2%nat); [|reflexivity].
    apply Hf. repeat constructor.
  - apply Hh. reflexivity.
Defined.

Example home_pos_ex :
  exists l,
    flag_loop 7 (initial_locals 7) [SET_HOME_POS "2"] = inr l
    /\ home_switch (config l) = [2; 0; 0; 0; 0; 0; 0].
Proof. eexists. split; vm_compute; reflexivity. Qed.

(** ** send_file_to_machine *)

Lemma count_events_app p (a b : list event) :
  count_events p (a ++ b) = (count_events p a + count_events p b)%nat.
Proof. unfold count_events. by rewrite filter_app, length_app. Qed.

(** One pass with the repeat flag off. *)
Lemma send_file_once fuel w f :
  send_file_to_machine (S fuel) w f false
  = ([EvOpen f (w_open w 0); EvStreamBegin (w_open w 0) STDERR_FILENO;
      EvStreamEnd (w_stream w 0)],
     Some (if w_stream w 0 =? 0 then 0 else 1)).
Proof.
  unfold send_file_to_machine. simpl. by destruct (w_stream w 0 =? 0).
Qed.

(** With the repeat flag on and an engine that keeps returning 0, every
    iteration that the bound allows is run, and the loop is not left. *)
Lemma send_file_loop_forever w f : forall fuel k,
  (forall j, (k <= j)%nat -> w_stream w j = 0) ->
  exists tr,
    send_file_loop fuel k w f true = (tr, None)
    /\ count_events is_stream_begin tr = fuel
    /\ count_events is_open tr = fuel.
Proof.
  induction fuel as [|fuel IH]; intros k Hz.
  { by exists []. }
  destruct (IH (S k)) as (tr & E & H1 & H2); [intros j Hj; apply Hz; lia|].
  simpl. rewrite Hz by lia. simpl. rewrite E.
  eexists. split; [reflexivity|].
  change (?a :: ?b :: ?c :: tr) with ([a; b; c] ++ tr).
  rewrite !count_events_app, H1, H2. done.
Qed.

(** With the repeat flag on, the first non-zero result, at iteration [m],
    ends the loop there. *)
Lemma send_file_loop_failure w f : forall n k fuel,
  (forall j, (k <= j < k + n)%nat -> w_stream w j = 0) ->
  w_stream w (k + n) <> 0 -> (n < fuel)%nat ->
  exists tr,
    send_file_loop fuel k w f true = (tr, Some 1)
    /\ count_events is_stream_begin tr = S n
    /\ count_events is_open tr = S n
    /\ last tr = Some (EvStreamEnd (w_stream w (k + n))).
Proof.
  induction n as [|n IH]; intros k fuel Hz Hnz Hfuel;
    (destruct fuel as [|fuel]; [lia|]); simpl.
  - rewrite Nat.add_0_r in Hnz.
    destruct (w_stream w k =? 0) eqn:Ez; [lia|].
    eexists. split; [reflexivity|]. rewrite Nat.add_0_r. done.
  - rewrite Hz by lia. simpl.
    destruct (IH (S k) fuel) as (tr & E & H1 & H2 & H3).
    { intros j Hj. apply Hz. lia. }
    { by replace (S k + n)%nat with (k + S n)%nat by lia. }
    { lia. }
    rewrite E. eexists. split; [reflexivity|].
    change (?a :: ?b :: ?c :: tr) with ([a; b; c] ++ tr).
    rewrite !count_events_app, H1, H2, last_app, H3.
    replace (S k + n)%nat with (k + S n)%nat by lia. done.
Qed.

(** C9: with the repeat flag off the engine is invoked exactly once,
    whatever it returns; with the repeat flag on, a non-zero engine result
    makes the runner return 1 at once, without another open; and when the
    engine always returns 0 the file is opened and processed again without
    end: for every [n] the run reaches [n] engine calls and has not
    returned. *)
Theorem file_playback w f :
  (forall fuel,
     snd (send_file_to_machine (S fuel) w f false)
     = Some (if w_stream w 0 =? 0 then 0 else 1)
     /\ count_events is_stream_begin
          (fst (send_file_to_machine (S fuel) w f false)) = 1%nat)
  /\ (forall m fuel,
        (forall j, (j < m)%nat -> w_stream w j = 0) ->
        w_stream w m <> 0 -> (m < fuel)%nat ->
        exists tr,
          send_file_to_machine fuel w f true = (tr, Some 1)
          /\ count_events is_stream_begin tr = S m
          /\ count_events is_open tr = S m
          /\ last tr = Some (EvStreamEnd (w_stream w m)))
  /\ ((forall j, w_stream w j = 0) ->
      forall n, exists tr,
        send_file_to_machine n w f true = (tr, None)
        /\ count_events is_stream_begin tr = n
        /\ count_events is_open tr = n).
Proof.
  split; [|split].
  - intros fuel. by rewrite send_file_once.
  - intros m fuel Hz Hnz Hfuel. unfold send_file_to_machine.
    apply (send_file_loop_failure w f m 0 fuel); [|done|done].
    intros j Hj. apply Hz. lia.
  - intros Hz n. apply send_file_loop_forever. intros j _. apply Hz.
Qed.

Lemma file_playback_witness :
  (exists tr,
     send_file_to_machine 5
       (example_world (fun k => if (k =? 2)%nat then 1 else 0))
       "a.gcode" true = (tr, Some 1)
     /\ count_events is_stream_begin tr = 3%nat
     /\ count_events is_open tr = 3%nat
     /\ last tr = Some (EvStreamEnd 1))
  /\ (exists tr,
        send_file_to_machine 4 (example_world (fun _ => 0)) "a.gcode" true
        = (tr, None)
        /\ count_events is_stream_begin tr = 4%nat
        /\ count_events is_open tr = 4%nat).
Proof.
  split.
  - destruct (file_playback
                (example_world (fun k => if (k =? 2)%nat then 1 else 0))
                "a.gcode") as (_ & H & _).
    apply (H 2%nat 5%nat).
    + intros j Hj. simpl. destruct (Nat.eqb_spec j 2); [lia|done].
    + simpl. done.
    + lia.
  - destruct (file_playback (example_world (fun _ => 0)) "a.gcode")
      as (_ & _ & H).
    apply (H (fun _ => eq_refl) 4%nat).
Defined.

(** C4 (the code at the failing input): when [open] fails, no error is
    reported and the descriptor -1 is handed to the engine; here the engine
    answers 0 and the process exits with 0. *)
Theorem open_failure_reaches_engine :
  let w := {| w_init := fun _ => 0; w_open := fun _ => -1;
              w_stream := fun _ => 0; w_socket := 3;
              w_inet_pton := fun _ => 1; w_bind := 0;
              w_accept := fun _ => 4 |} in
  main 7 1 w [] ["missing.gcode"]
  = ([EvInit (config (initial_locals 7)) 0;
      EvOpen "missing.gcode" (-1);
      EvStreamBegin (-1) STDERR_FILENO;
      EvStreamEnd 0;
      EvExit],
     Some 0).
Proof. reflexivity. Qed.

(** Whatever [open] returns, the first pass hands it to the engine, and
    [send_file_to_machine] reports no error of its own. *)
Lemma send_file_open_unchecked fuel w f do_loop :
  exists rest,
    fst (send_file_to_machine (S fuel) w f do_loop)
    = EvOpen f (w_open w 0)
      :: EvStreamBegin (w_open w 0) STDERR_FILENO :: rest.
Proof.
  unfold send_file_to_machine. simpl.
  destruct (w_stream w 0 =? 0); [destruct do_loop|]; simpl; eauto.
  destruct (send_file_loop _ _ _ _ _). simpl. eauto.
Qed.

(** ** run_server *)

Lemma serving_cons e tr : serving (e :: tr) = delta e + serving tr.
Proof.
  unfold serving, count_events, delta. rewrite !filter_cons.
  destruct e; simpl; repeat case_decide; simpl; try done; lia.
Qed.

Lemma bounded_nil base : 0 <= base <= 1 -> bounded base [].
Proof.
  intros H p Hp. apply prefix_nil_inv in Hp as ->.
  unfold serving, count_events. simpl. lia.
Qed.

Lemma bounded_cons base e tr :
  0 <= base <= 1 -> bounded (base + delta e) tr -> bounded base (e :: tr).
Proof.
  intros Hb H [|x p] Hp.
  { unfold serving, count_events. simpl. lia. }
  pose proof (prefix_cons_inv_1 _ _ _ _ Hp) as ->.
  apply prefix_cons_inv_2 in Hp. apply H in Hp.
  rewrite serving_cons. lia.
Qed.

Lemma bounded_cons_inv base e tr :
  bounded base (e :: tr) -> 0 <= base <= 1 /\ bounded (base + delta e) tr.
Proof.
  intros H. split.
  - specialize (H [] (prefix_nil _)).
    unfold serving, count_events in H. simpl in H. lia.
  - intros p Hp. specialize (H (e :: p) (prefix_cons _ _ _ Hp)).
    rewrite serving_cons in H. lia.
Qed.

Lemma bounded_app a : forall base b,
  bounded base a -> bounded (base + serving a) b -> bounded base (a ++ b).
Proof.
  induction a as [|e a IH]; intros base b Ha Hb; simpl.
  { replace base with (base + serving []); [done|].
    unfold serving, count_events. simpl. lia. }
  apply bounded_cons_inv in Ha as [H0 Ha].
  apply bounded_cons; [done|]. apply IH; [done|].
  rewrite serving_cons in Hb. by replace (base + delta e + serving a)
    with (base + (delta e + serving a)) by lia.
Qed.

(** Proves [bounded] for a list of events that is written out. *)
Ltac bounded_events :=
  repeat (apply bounded_cons; [simpl; lia|]; unfold delta; simpl);
  try (apply bounded_nil; simpl; lia).

(** The accept loop serves its sessions one after the other. *)
Lemma accept_loop_bounded w s : forall fuel k,
  bounded 0 (fst (accept_loop fuel k w s))
  /\ serving (fst (accept_loop fuel k w s)) = 0.
Proof.
  induction fuel as [|fuel IH]; intros k; simpl.
  { split; [by apply bounded_nil|done]. }
  destruct (w_accept w k <? 0); simpl.
  { split; [bounded_events|reflexivity]. }
  destruct (w_stream w k =? 0); simpl.
  - destruct (IH (S k)) as [H1 H2].
    destruct (accept_loop fuel (S k) w s) as [tr e]. simpl in *.
    split.
    + bounded_events. exact H1.
    + rewrite !serving_cons, H2. done.
  - split; [bounded_events|reflexivity].
Qed.

(** An iteration of the accept loop starts with [accept], and with a
    descriptor that is not negative it goes on to serve the connection. *)
Lemma accept_loop_first fuel k w s :
  exists q',
    fst (accept_loop (S fuel) k w s) = EvAccept s (w_accept w k) :: q'
    /\ (0 <= w_accept w k ->
        exists r q'',
          q' = EvAccepting
               :: EvStreamBegin (w_accept w k) (w_accept w k)
               :: EvStreamEnd r :: q'').
Proof.
  simpl. destruct (w_accept w k <? 0) eqn:Ec; simpl.
  { eexists. split; [done|]. lia. }
  destruct (w_stream w k =? 0).
  - destruct (accept_loop fuel (S k) w s) as [tr e]. simpl. eauto.
  - simpl. eauto.
Qed.

Lemma accept_loop_S fuel k w s :
  accept_loop (S fuel) k w s
  = if w_accept w k <? 0 then
      ([EvAccept s (w_accept w k); EvPerror "accept"], Returned 1)
    else
      let evs := [EvAccept s (w_accept w k); EvAccepting;
                  EvStreamBegin (w_accept w k) (w_accept w k);
                  EvStreamEnd (w_stream w k); EvConnectionClosed] in
      if w_stream w k =? 0 then
        let '(tr, e) := accept_loop fuel (S k) w s in (evs ++ tr, e)
      else (evs, Exited (w_stream w k)).
Proof. reflexivity. Qed.

(** A run that has used up its bound goes on with a call of [accept]. *)
Lemma accept_loop_extend w s : forall fuel k tr,
  accept_loop fuel k w s = (tr, StillRunning) ->
  exists c rest e,
    accept_loop (S fuel) k w s = (tr ++ EvAccept s c :: rest, e).
Proof.
  induction fuel as [|fuel IH]; intros k tr E.
  { injection E as <-.
    destruct (accept_loop_first 0 k w s) as (q' & H & _).
    destruct (accept_loop 1 k w s) as [tr e]. simpl in H. subst. eauto. }
  simpl in E.
  destruct (w_accept w k <? 0) eqn:Ec; [done|].
  destruct (w_stream w k =? 0) eqn:Er; [|done].
  destruct (accept_loop fuel (S k) w s) as [tr' e'] eqn:E'.
  injection E as <- ->.
  destruct (IH _ _ E') as (c & rest & e & H).
  rewrite (accept_loop_S (S fuel) k), Ec, Er.
  cbv zeta. rewrite H. exists c, rest, e. done.
Qed.

(** What follows the return of a stream call in the accept loop. *)
Lemma accept_loop_after_end w s : forall fuel k tr e p r q,
  accept_loop fuel k w s = (tr, e) ->
  tr = p ++ EvStreamEnd r :: q ->
  (r = 0
   /\ ((q = [EvConnectionClosed] /\ e = StillRunning)
       \/ exists c q',
            q = EvConnectionClosed :: EvAccept s c :: q'
            /\ (0 <= c ->
                exists r' q'',
                  q' = EvAccepting :: EvStreamBegin c c
                       :: EvStreamEnd r' :: q'')))
  \/ (r <> 0 /\ q = [EvConnectionClosed] /\ e = Exited r).
Proof.
  induction fuel as [|fuel IH]; intros k tr e p r q E Htr.
  { injection E as <- <-. by destruct p. }
  rewrite accept_loop_S in E.
  destruct (w_accept w k <? 0).
  { injection E as <- <-.
    destruct p as [|? [|? [|? ?]]]; simplify_eq/=. }
  cbv zeta in E.
  destruct (w_stream w k =? 0) eqn:Er.
  - destruct (accept_loop fuel (S k) w s) as [tr' e'] eqn:E'.
    injection E as <- <-.
    destruct p as [|? [|? [|? [|? [|? p]]]]]; simplify_eq/=.
    + left. split; [lia|].
      destruct fuel as [|fuel].
      * injection E' as <- <-. by left.
      * right. destruct (accept_loop_first fuel (S k) w s) as (q' & H1 & H2).
        rewrite E' in H1. simpl in H1. subst tr'. eauto.
    + by apply (IH _ _ _ p _ _ E').
  - injection E as <- <-.
    destruct p as [|? [|? [|? [|? [|? [|? p]]]]]]; simplify_eq/=.
    right. split; [lia|done].
Qed.

Lemma serving_quiet tr : quiet tr -> serving tr = 0.
Proof.
  induction 1 as [|e tr He _ IH]; [done|]. rewrite serving_cons. lia.
Qed.

Lemma bounded_quiet base tr : quiet tr -> 0 <= base <= 1 -> bounded base tr.
Proof.
  induction 1 as [|e tr He _ IH]; intros Hb; [by apply bounded_nil|].
  apply bounded_cons; [done|]. rewrite He, Z.add_0_r. by apply IH.
Qed.

(** A stream return is not among quiet events: splitting around it. *)
Lemma split_after_quiet r : forall setup rest p q,
  quiet setup -> setup ++ rest = p ++ EvStreamEnd r :: q ->
  exists p', p = setup ++ p' /\ rest = p' ++ EvStreamEnd r :: q.
Proof.
  induction setup as [|e setup IH]; intros rest p q Hq E; simpl in E.
  { by exists p. }
  apply Forall_cons in Hq as [He Hq].
  destruct p as [|x p]; [by injection E as -> _|].
  injection E as -> E.
  destruct (IH _ _ _ Hq E) as (p' & -> & ->). by exists p'.
Qed.

Lemma split_before_quiet r tr closing p q :
  quiet closing -> tr ++ closing = p ++ EvStreamEnd r :: q ->
  exists q', q = q' ++ closing /\ tr = p ++ EvStreamEnd r :: q'.
Proof.
  intros Hq E. apply app_eq_app in E as [l [[-> E]|[-> E]]].
  - destruct l as [|x l]; simpl in E.
    + subst closing. by apply Forall_cons in Hq as [? _].
    + injection E as <- ->. by exists l.
  - subst closing. apply Forall_app in Hq as [_ Hq].
    by apply Forall_cons in Hq as [? _].
Qed.

Lemma quiet_setup w b port : quiet (setup_events w b port).
Proof. by repeat constructor. Qed.

Lemma quiet_closing s e : quiet (closing_events s e).
Proof. destruct e; by repeat constructor. Qed.

(** [run_server] is its setup, then the accept loop, then the closing. *)
Lemma run_server_cases w bind_addr port :
  (exists tr,
     quiet tr /\ forall n, run_server n w bind_addr port = (tr, Some 1))
  \/ (forall n,
        run_server n w bind_addr port
        = (setup_events w bind_addr port
             ++ fst (accept_loop n 0 w (w_socket w))
             ++ closing_events (w_socket w)
                  (snd (accept_loop n 0 w (w_socket w))),
           loop_result (snd (accept_loop n 0 w (w_socket w))))).
Proof.
  unfold run_server.
  destruct (65535 <? port).
  { left. eexists. split; [|done]. by repeat constructor. }
  destruct (w_socket w <? 0).
  { left. eexists. split; [|done]. by repeat constructor. }
  destruct (bad_bind_addr w bind_addr).
  { left. eexists. split; [|done]. by repeat constructor. }
  destruct (w_bind w <? 0).
  { left. eexists. split; [|done]. by repeat constructor. }
  right. intros n.
  destruct (accept_loop n 0 w (w_socket w)) as [tr [| |]]; simpl;
    by rewrite ?app_nil_r.
Qed.

(** What follows the return of a stream call in a run of [run_server]. *)
Lemma run_server_after_end fuel w bind_addr port p r q :
  fst (run_server fuel w bind_addr port) = p ++ EvStreamEnd r :: q ->
  (r = 0
   /\ ((q = [EvConnectionClosed]
        /\ snd (run_server fuel w bind_addr port) = None)
       \/ exists c q',
            q = EvConnectionClosed :: EvAccept (w_socket w) c :: q'
            /\ (0 <= c ->
                exists r' q'',
                  q' = EvAccepting :: EvStreamBegin c c
                       :: EvStreamEnd r' :: q'')))
  \/ (r <> 0
      /\ q = [EvConnectionClosed; EvClose (w_socket w); EvLastResult r]
      /\ snd (run_server fuel w bind_addr port) = Some 0).
Proof.
  destruct (run_server_cases w bind_addr port) as [(tr0 & Hq & H)|H];
    rewrite H; cbn [fst snd]; intros E.
  { subst tr0. apply Forall_app in Hq as [_ Hq].
    by apply Forall_cons in Hq as [? _]. }
  apply split_after_quiet in E as (p' & _ & E); [|apply quiet_setup].
  apply split_before_quiet in E as (q' & -> & E); [|apply quiet_closing].
  destruct (accept_loop fuel 0 w (w_socket w)) as [tr e] eqn:El.
  simpl in *.
  destruct (accept_loop_after_end _ _ _ _ _ _ p' r q' El E)
    as [[-> [[-> ->]|(c & q'' & -> & Hc)]]|(Hr & -> & ->)].
  - left. split; [done|]. by left.
  - left. split; [done|]. right.
    exists c, (q'' ++ closing_events (w_socket w) e). split; [done|].
    intros H0. destruct (Hc H0) as (r' & q3 & ->).
    by exists r', (q3 ++ closing_events (w_socket w) e).
  - right. done.
Qed.

(** C6: in the service loop of [run_server] at most one connection is
    being served at any time; after a session that ended with engine
    result 0 the loop calls [accept] again and serves the connection it
    gets (a run cut off by the iteration bound goes on with that call of
    [accept]); after a session that ended with a non-zero result there is
    no further [accept] and the listening socket is closed. *)
Theorem server_one_session_at_a_time fuel w bind_addr port tr ret :
  run_server fuel w bind_addr port = (tr, ret) ->
  serialized tr
  /\ (forall p q,
        tr = p ++ EvStreamEnd 0 :: q ->
        (q = [EvConnectionClosed] /\ ret = None)
        \/ exists c q',
             q = EvConnectionClosed :: EvAccept (w_socket w) c :: q'
             /\ (0 <= c ->
                 exists r' q'',
                   q' = EvAccepting :: EvStreamBegin c c
                        :: EvStreamEnd r' :: q''))
  /\ (ret = None ->
      exists c rest ret',
        run_server (S fuel) w bind_addr port
        = (tr ++ EvAccept (w_socket w) c :: rest, ret'))
  /\ (forall p q r,
        r <> 0 -> tr = p ++ EvStreamEnd r :: q ->
        q = [EvConnectionClosed; EvClose (w_socket w); EvLastResult r]
        /\ count_events is_accept q = O).
Proof.
  intros E. split; [|split; [|split]].
  - destruct (run_server_cases w bind_addr port) as [(tr0 & Hq & H)|H];
      rewrite H in E; injection E as <- <-.
    { apply bounded_quiet; [done|lia]. }
    destruct (accept_loop_bounded w (w_socket w) fuel 0) as [H1 H2].
    apply (bounded_app (setup_events w bind_addr port) 0
             (fst (accept_loop fuel 0 w (w_socket w)) ++ _));
      [apply bounded_quiet; [apply quiet_setup|lia]|].
    rewrite (serving_quiet _ (quiet_setup w bind_addr port)).
    apply bounded_app; [exact H1|].
    rewrite H2. apply bounded_quiet; [apply quiet_closing|lia].
  - intros p q Htr.
    pose proof (run_server_after_end fuel w bind_addr port p 0 q) as H.
    rewrite E in H. cbn [fst snd] in H.
    destruct (H Htr) as [[_ H']|[? _]]; [exact H'|done].
  - intros ->.
    destruct (run_server_cases w bind_addr port) as [(tr0 & Hq & H)|H];
      rewrite H in E; [done|].
    rewrite (H (S fuel)).
    destruct (accept_loop fuel 0 w (w_socket w)) as [trl e] eqn:El.
    cbn [fst snd] in E. injection E as <- E.
    destruct e; try discriminate E.
    destruct (accept_loop_extend _ _ _ _ _ El) as (c & rest & e' & ->).
    cbn [fst snd closing_events].
    exists c, (rest ++ closing_events (w_socket w) e'), (loop_result e').
    rewrite app_nil_r, <- !app_assoc. reflexivity.
  - intros p q r Hr Htr.
    pose proof (run_server_after_end fuel w bind_addr port p r q) as H.
    rewrite E in H. cbn [fst snd] in H.
    destruct (H Htr) as [[? _]|(_ & -> & _)]; done.
Qed.

Lemma server_one_session_at_a_time_witness :
  exists tr,
    run_server 3 (example_world (fun k => if (k =? 1)%nat then 7 else 0))
      None 8000 = (tr, Some 0)
    /\ serialized tr
    /\ count_events is_accept tr = 2%nat
    /\ last tr = Some (EvLastResult 7).
Proof.
  eexists. split; [vm_compute; reflexivity|].
  split; [|split; reflexivity].
  eapply (server_one_session_at_a_time 3
            (example_world (fun k => if (k =? 1)%nat then 7 else 0))
            None 8000).
  vm_compute. reflexivity.
Defined.

(** C1 (the code at the failing input): in network mode the engine returns
    1 for the first session; the loop is left, the listening socket is
    closed, the result is logged, and the process exits with 0. *)
Theorem server_engine_failure_exits_zero :
  main 7 1 (example_world (fun _ => 1)) [Opt_p "8000"] []
  = ([EvInit (config (initial_locals 7)) 0;
      EvSocket 3; EvSetsockopt 3; EvBind 3 None 8000 0; EvIgnoreSigpipe;
      EvListen 3 2; EvListening "0.0.0.0" 8000;
      EvAccept 3 4; EvAccepting; EvStreamBegin 4 4; EvStreamEnd 1;
      EvConnectionClosed; EvClose 3; EvLastResult 1; EvExit],
     Some 0).
Proof. vm_compute. reflexivity. Qed.

(** In every run of [run_server], a non-zero engine result makes the
    function return 0. *)
Lemma run_server_failure_returns_zero fuel w bind_addr port p r q :
  r <> 0 ->
  fst (run_server fuel w bind_addr port) = p ++ EvStreamEnd r :: q ->
  snd (run_server fuel w bind_addr port) = Some 0.
Proof.
  intros Hr E.
  by destruct (run_server_after_end _ _ _ _ _ _ _ E) as [[? _]|(_ & _ & ?)].
Qed.

(** ** Mode selection *)

Lemma flag_case_set_port N p l opt :
  is_port_option opt = false ->
  flag_case N (set_listen_port p l) opt
  = match flag_case N l opt with
    | inl msg => inl msg
    | inr l' => inr (set_listen_port p l')
    end.
Proof.
  intros Hp. destruct opt; simpl in *; try done.
  - by destruct (float_le_zero _).
  - by destruct (parse_float_array _ _ _) as [[|c] a].
  - by destruct (parse_float_array _ _ _) as [[|c] a].
  - by destruct (parse_float_array _ _ _) as [[|c] a].
  - by destruct (parse_float_array _ _ _) as [[|c] a].
  - by destruct (parse_float_array _ _ _) as [[|c] a].
Qed.

Lemma flag_case_keeps_port N l opt l' :
  is_port_option opt = false -> flag_case N l opt = inr l' ->
  listen_port l' = listen_port l.
Proof. intros Hp E. flag_cases E. Qed.

Lemma set_listen_port_same l : set_listen_port (listen_port l) l = l.
Proof. by destruct l. Qed.

Lemma flag_loop_set_port N p : forall opts l,
  Forall (fun o => is_port_option o = false) opts ->
  flag_loop N (set_listen_port p l) opts
  = match flag_loop N l opts with
    | inl msg => inl msg
    | inr l' => inr (set_listen_port p l')
    end.
Proof.
  induction opts as [|opt opts IH]; intros l Hf; [done|].
  apply Forall_cons in Hf as [Hp Hf]. simpl.
  rewrite (flag_case_set_port _ _ _ _ Hp).
  destruct (flag_case N l opt) as [msg|l1]; [done|]. by apply IH.
Qed.

Lemma flag_loop_keeps_port N : forall opts l l',
  Forall (fun o => is_port_option o = false) opts ->
  flag_loop N l opts = inr l' -> listen_port l' = listen_port l.
Proof.
  induction opts as [|opt opts IH]; intros l l' Hf E; simpl in E.
  { by injection E as <-. }
  apply Forall_cons in Hf as [Hp Hf].
  destruct (flag_case N l opt) as [msg|l1] eqn:E1; [done|].
  rewrite (IH _ _ Hf E). by apply (flag_case_keeps_port N l opt).
Qed.

Lemma without_port_free opts :
  Forall (fun o => is_port_option o = false) (without_port opts).
Proof.
  unfold without_port. induction opts as [|opt opts IH]; [constructor|].
  rewrite filter_cons. case_decide; [by constructor|done].
Qed.

(** The flag loop with and without the port options: the same error, or
    the same locals but for [listen_port]. *)
Lemma flag_loop_port N : forall opts l,
  flag_loop N l opts
  = match flag_loop N l (without_port opts) with
    | inl msg => inl msg
    | inr l' => inr (set_listen_port (final_port (listen_port l) opts) l')
    end.
Proof.
  induction opts as [|opt opts IH]; intros l.
  { simpl. by rewrite set_listen_port_same. }
  destruct (is_port_option opt) eqn:Hp.
  - destruct opt; try discriminate Hp.
    unfold without_port. rewrite filter_cons_False by done.
    fold (without_port opts). simpl.
    change (mkLocals (config l) (atoi optarg) (do_file_repeat l) (bind_addr l))
      with (set_listen_port (atoi optarg) l).
    rewrite IH. simpl.
    rewrite (flag_loop_set_port _ _ _ _ (without_port_free opts)).
    by destruct (flag_loop N l (without_port opts)).
  - unfold without_port. rewrite filter_cons_True by done.
    fold (without_port opts). simpl.
    destruct (flag_case N l opt) as [msg|l1] eqn:E1; [done|].
    rewrite IH, (flag_case_keeps_port _ _ _ _ Hp E1).
    by destruct opt.
Qed.

Lemma final_port_last opts optarg : forall p0,
  last (port_args opts) = Some optarg -> final_port p0 opts = atoi optarg.
Proof.
  unfold final_port, port_args.
  induction opts as [|opt opts IH]; intros p0 Hl; [done|].
  change (opt :: opts) with ([opt] ++ opts) in Hl.
  rewrite omap_app, last_app in Hl. simpl.
  destruct (last (omap _ opts)) as [a|] eqn:El.
  - injection Hl as ->. by apply IH.
  - apply last_None in El.
    assert (Hsame : forall p,
      fold_left (fun p o => match o with Opt_p a => atoi a | _ => p end)
        opts p = p).
    { clear -El. induction opts as [|o os IHos]; intros p; [done|].
      destruct o; simpl in *; try done; by apply IHos. }
    rewrite Hsame. destruct opt; simpl in Hl; try done. by injection Hl as ->.
Qed.

(** The checks on the mode, by the four combinations. *)
Lemma dispatch_neither fuel w l :
  listen_port l <= 0 ->
  main_dispatch fuel w l []
  = usage "Choose one: <gcode-filename> or --port <port>.".
Proof.
  intros Hp. unfold main_dispatch.
  by replace (0 <? listen_port l) with false by lia.
Qed.

Lemma dispatch_both fuel w l filename rest :
  0 < listen_port l ->
  main_dispatch fuel w l (filename :: rest)
  = usage "Choose one: <gcode-filename> or --port <port>.".
Proof.
  intros Hp. unfold main_dispatch.
  by replace (0 <? listen_port l) with true by lia.
Qed.

Lemma dispatch_repeat_network fuel w l :
  0 < listen_port l -> do_file_repeat l = true ->
  main_dispatch fuel w l []
  = usage "-R (repeat) only makes sense with a filename.".
Proof.
  intros Hp Hr. unfold main_dispatch.
  replace (0 <? listen_port l) with true by lia. by rewrite Hr.
Qed.

Lemma dispatch_file fuel w l filename rest :
  listen_port l <= 0 ->
  main_dispatch fuel w l (filename :: rest)
  = let r := w_init w (config l) in
    if negb (r =? 0) then ([EvInit (config l) r], Some 1)
    else
      let '(tr, ret) :=
        send_file_to_machine fuel w filename (do_file_repeat l) in
      match ret with
      | Some v => (EvInit (config l) r :: tr ++ [EvExit], Some v)
      | None => (EvInit (config l) r :: tr, None)
      end.
Proof.
  intros Hp. unfold main_dispatch.
  by replace (0 <? listen_port l) with false by lia.
Qed.

Lemma dispatch_network fuel w l :
  0 < listen_port l -> do_file_repeat l = false ->
  main_dispatch fuel w l []
  = let r := w_init w (config l) in
    if negb (r =? 0) then ([EvInit (config l) r], Some 1)
    else
      let '(tr, ret) := run_server fuel w (bind_addr l) (listen_port l) in
      match ret with
      | Some v => (EvInit (config l) r :: tr ++ [EvExit], Some v)
      | None => (EvInit (config l) r :: tr, None)
      end.
Proof.
  intros Hp Hr. unfold main_dispatch.
  replace (0 <? listen_port l) with true by lia. by rewrite Hr.
Qed.

(** C5: after the flags are parsed, the mode is chosen by an exclusive-or
    of "a trailing filename is present" and "a listen port is present"
    ([listen_port > 0]): both or neither is a usage error with exit code 1,
    and so is the repeat flag without a filename; in every other case
    [main] goes on to initialise the engine. *)
Theorem mode_selection N fuel w opts positional l :
  flag_loop N (initial_locals N) opts = inr l ->
  let has_filename := bool_decide (positional <> []) in
  let has_port := bool_decide (0 < listen_port l) in
  (xorb has_filename has_port = false ->
   main N fuel w opts positional
   = ([EvUsage "Choose one: <gcode-filename> or --port <port>."], Some 1))
  /\ (has_filename = false -> has_port = true -> do_file_repeat l = true ->
      main N fuel w opts positional
      = ([EvUsage "-R (repeat) only makes sense with a filename."], Some 1))
  /\ (xorb has_filename has_port = true ->
      (has_filename = false -> do_file_repeat l = false) ->
      exists tr ret,
        main N fuel w opts positional
        = (EvInit (config l) (w_init w (config l)) :: tr, ret)).
Proof.
  intros E has_filename has_port. unfold main. rewrite E.
  subst has_filename has_port.
  destruct positional as [|filename rest];
    destruct (decide (0 < listen_port l)) as [Hp|Hp];
    rewrite ?(bool_decide_eq_true_2 _ Hp), ?(bool_decide_eq_false_2 _ Hp);
    simpl; (split; [|split]); try done.
  - intros _ _ Hr. by apply dispatch_repeat_network.
  - intros _ Hr. rewrite dispatch_network by auto. cbv zeta.
    destruct (negb _); [by eauto|].
    destruct (run_server _ _ _ _) as [tr [v|]]; eauto.
  - intros _. apply dispatch_neither. lia.
  - intros _. by apply dispatch_both.
  - intros _ _. rewrite dispatch_file by lia. cbv zeta.
    destruct (negb _); [by eauto|].
    destruct (send_file_to_machine _ _ _ _) as [tr [v|]]; eauto.
Qed.

Lemma mode_selection_witness :
  main 7 1 (example_world (fun _ => 0)) [Opt_p "8000"] ["a.gcode"]
  = ([EvUsage "Choose one: <gcode-filename> or --port <port>."], Some 1)
  /\ main 7 1 (example_world (fun _ => 0)) [Opt_R; Opt_p "8000"] []
     = ([EvUsage "-R (repeat) only makes sense with a filename."], Some 1).
Proof.
  split.
  - destruct (flag_loop 7 (initial_locals 7) [Opt_p "8000"])
      as [msg|l] eqn:E; [by vm_compute in E|].
    destruct (mode_selection 7 1 (example_world (fun _ => 0))
                [Opt_p "8000"] ["a.gcode"] l E) as (H & _).
    apply H. vm_compute in E. injection E as <-. reflexivity.
  - destruct (flag_loop 7 (initial_locals 7) [Opt_R; Opt_p "8000"])
      as [msg|l] eqn:E; [by vm_compute in E|].
    destruct (mode_selection 7 1 (example_world (fun _ => 0))
                [Opt_R; Opt_p "8000"] [] l E) as (_ & H & _).
    vm_compute in E. injection E as <-. apply H; reflexivity.
Defined.

(** C10: a [--port] argument that [atoi] converts to a number that is not
    positive is treated as if no port option had been given: the run is
    the run of the command line without the port options; without a
    filename the choose-one usage error is produced, and with a filename
    the program runs in file mode. *)
Theorem nonpositive_port_is_no_port N fuel w opts optarg positional :
  last (port_args opts) = Some optarg -> atoi optarg <= 0 ->
  main N fuel w opts positional = main N fuel w (without_port opts) positional
  /\ forall l,
       flag_loop N (initial_locals N) opts = inr l ->
       match positional with
       | [] =>
           main N fuel w opts positional
           = ([EvUsage "Choose one: <gcode-filename> or --port <port>."],
              Some 1)
       | filename :: _ =>
           main N fuel w opts positional
           = let r := w_init w (config l) in
             if negb (r =? 0) then ([EvInit (config l) r], Some 1)
             else
               let '(tr, ret) :=
                 send_file_to_machine fuel w filename (do_file_repeat l) in
               match ret with
               | Some v => (EvInit (config l) r :: tr ++ [EvExit], Some v)
               | None => (EvInit (config l) r :: tr, None)
               end
       end.
Proof.
  intros Hl Hp. unfold main. rewrite flag_loop_port.
  rewrite (final_port_last _ _ _ Hl).
  destruct (flag_loop N (initial_locals N) (without_port opts))
    as [msg|l'] eqn:E'.
  { split; [done|]. by intros l. }
  pose proof (flag_loop_keeps_port _ _ _ _ (without_port_free opts) E')
    as Hport.
  change (listen_port (initial_locals N)) with (-1) in Hport.
  split.
  - destruct positional as [|filename rest].
    + rewrite !dispatch_neither; [done|lia|simpl; lia].
    + rewrite !dispatch_file; [done|lia|simpl; lia].
  - intros l [= <-]. destruct positional as [|filename rest].
    + by apply dispatch_neither.
    + by apply dispatch_file.
Qed.

Lemma nonpositive_port_is_no_port_witness :
  main 7 1 (example_world (fun _ => 0)) [Opt_p "0"; Opt_n] []
  = ([EvUsage "Choose one: <gcode-filename> or --port <port>."], Some 1)
  /\ main 7 1 (example_world (fun _ => 0)) [Opt_p "-5"; Opt_n] ["a.gcode"]
     = main 7 1 (example_world (fun _ => 0)) [Opt_n] ["a.gcode"].
Proof.
  split.
  - destruct (flag_loop 7 (initial_locals 7) [Opt_p "0"; Opt_n])
      as [msg|l] eqn:E; [by vm_compute in E|].
    assert (Ha : atoi "0" <= 0) by (vm_compute; discriminate).
    destruct (nonpositive_port_is_no_port 7 1 (example_world (fun _ => 0))
                [Opt_p "0"; Opt_n] "0" [] eq_refl Ha) as [_ H].
    exact (H l E).
  - assert (Ha : atoi "-5" <= 0) by (vm_compute; discriminate).
    destruct (nonpositive_port_is_no_port 7 1 (example_world (fun _ => 0))
                [Opt_p "-5"; Opt_n] "-5" ["a.gcode"] eq_refl Ha) as [H _].
    exact H.
Defined.

(** ** Comma-separated lists *)

(** A comma ends every part of a number: what follows it has no influence
    on what [strtod] reads before it. *)
Lemma advance_append n : forall t s,
  (n <= String.length t)%nat -> advance n (t +:+ s) = advance n t +:+ s.
Proof.
  induction n as [|n IH]; intros t s Hn; [done|].
  destruct t as [|c t]; simpl in *; [lia|]. apply IH. lia.
Qed.

Lemma get_append_end t c s :
  String.get (String.length t) (t +:+ String c s) = Some c.
Proof. induction t as [|x t IH]; simpl; done. Qed.

Lemma span_space_bound t : (span_space t <= String.length t)%nat.
Proof.
  induction t as [|c t IH]; simpl; [done|]. destruct (isspace c); simpl; lia.
Qed.

Lemma span_space_comma t r : span_space (t +:+ String "," r) = span_space t.
Proof.
  induction t as [|c t IH]; simpl; [done|]. by rewrite IH.
Qed.

Lemma scan_digits_bound t : forall acc,
  (snd (scan_digits t acc) <= String.length t)%nat.
Proof.
  induction t as [|c t IH]; intros acc; simpl; [done|].
  destruct (isdigit c); simpl; [|lia].
  specialize (IH (10 * acc + digit_value c)).
  destruct (scan_digits t _). simpl in *. lia.
Qed.

Lemma scan_digits_comma t r : forall acc,
  scan_digits (t +:+ String "," r) acc = scan_digits t acc.
Proof.
  induction t as [|c t IH]; intros acc; simpl; [done|]. by rewrite IH.
Qed.

Lemma scan_sign_comma t r : scan_sign (t +:+ String "," r) = scan_sign t.
Proof. by destruct t. Qed.

Lemma scan_sign_bound t : (snd (scan_sign t) <= String.length t)%nat.
Proof.
  destruct t as [|c t]; [done|]. unfold scan_sign.
  repeat case_match; simpl; lia.
Qed.

Lemma scan_exponent_comma t r :
  scan_exponent (t +:+ String "," r) = scan_exponent t.
Proof.
  destruct t as [|c t]; [done|]. simpl.
  destruct (_ || _); [|done].
  rewrite scan_sign_comma. pose proof (scan_sign_bound t) as Hb.
  destruct (scan_sign t) as [neg ns]. simpl in Hb.
  by rewrite advance_append, scan_digits_comma.
Qed.

Lemma scan_mantissa_comma t r :
  scan_mantissa (t +:+ String "," r) = scan_mantissa t.
Proof.
  unfold scan_mantissa. rewrite scan_digits_comma.
  pose proof (scan_digits_bound t 0) as Hb.
  destruct (scan_digits t 0) as [ip n1]. simpl in Hb.
  rewrite advance_append by done.
  destruct (advance n1 t) as [|c t']; [done|]. simpl.
  by rewrite scan_digits_comma.
Qed.

Lemma advance_length n : forall t,
  String.length (advance n t) = (String.length t - n)%nat.
Proof.
  induction n as [|n IH]; intros t; simpl; [lia|].
  destruct t as [|c t]; simpl; [done|]. apply IH.
Qed.

Lemma scan_mantissa_bound t :
  (snd (scan_mantissa t) <= String.length t)%nat.
Proof.
  unfold scan_mantissa.
  pose proof (scan_digits_bound t 0) as Hb.
  destruct (scan_digits t 0) as [ip n1]. simpl in Hb.
  pose proof (advance_length n1 t) as Hl.
  destruct (advance n1 t) as [|c t']; [done|].
  destruct (decide (c = "."%char)) as [->|Hne].
  - pose proof (scan_digits_bound t' ip) as Hb'.
    destruct (scan_digits t' ip) as [m n2]. simpl in *.
    destruct (n1 + n2)%nat eqn:En; simpl; lia.
  - destruct c as [[] [] [] [] [] [] [] []]; simpl; try done.
Qed.

Lemma strtod_comma t r : strtod (t +:+ String "," r) = strtod t.
Proof.
  unfold strtod. rewrite span_space_comma.
  rewrite advance_append by apply span_space_bound.
  set (s1 := advance (span_space t) t).
  rewrite scan_sign_comma. pose proof (scan_sign_bound s1) as Hs.
  destruct (scan_sign s1) as [neg ns]. simpl in Hs.
  rewrite advance_append by done.
  set (s2 := advance ns s1).
  rewrite scan_mantissa_comma. pose proof (scan_mantissa_bound s2) as Hm.
  destruct (scan_mantissa s2) as [[m frac] nm]. simpl in Hm.
  destruct nm as [|nm]; [done|].
  by rewrite advance_append, scan_exponent_comma.
Qed.

Lemma advance_past t c s : advance (S (String.length t)) (t +:+ String c s) = s.
Proof. induction t as [|x t IH]; simpl; [by destruct s|done]. Qed.

Lemma get_length_None t : String.get (String.length t) t = None.
Proof. induction t as [|c t IH]; simpl; done. Qed.

Lemma join_comma_cons t l :
  l <> [] -> join_comma (t :: l) = t +:+ String "," (join_comma l).
Proof. by destruct l. Qed.

Lemma numeric_literal_strtod t :
  numeric_literal t ->
  strtod t = (atof t, String.length t) /\ String.length t <> O.
Proof.
  intros [Hn Hne]. unfold atof. rewrite <- Hn.
  split; [by destruct (strtod t)|]. rewrite Hn. by destruct t.
Qed.

(** A comma-separated list of numeric literals consists of numeric
    tokens. *)
Lemma join_comma_tokens ts :
  ts <> [] -> Forall numeric_literal ts ->
  numeric_tokens (join_comma ts) (map atof ts).
Proof.
  induction ts as [|t ts IH]; intros Hne Hall; [done|].
  apply Forall_cons in Hall as [Ht Hall].
  destruct (numeric_literal_strtod _ Ht) as [E Hlen].
  destruct ts as [|t2 ts].
  - simpl. eapply tokens_last; [exact E|done|apply get_length_None].
  - rewrite join_comma_cons by done. simpl map.
    eapply tokens_more.
    + rewrite strtod_comma. exact E.
    + done.
    + apply get_append_end.
    + rewrite advance_past. by apply IH.
Qed.

(** The list with a token that has no numeric prefix at position
    [length ts]. *)
Lemma join_comma_malformed bad rest : forall ts,
  Forall numeric_literal ts -> snd (strtod bad) = O ->
  malformed_at (length ts) (join_comma (ts ++ bad :: rest)).
Proof.
  induction ts as [|t ts IH]; intros Hall Hbad.
  - simpl app. apply malformed_here. destruct rest; [done|].
    rewrite join_comma_cons by done. by rewrite strtod_comma.
  - apply Forall_cons in Hall as [Ht Hall].
    destruct (numeric_literal_strtod _ Ht) as [E Hlen].
    simpl app. rewrite join_comma_cons by (by destruct ts).
    eapply malformed_later.
    + rewrite strtod_comma. exact E.
    + done.
    + apply get_append_end.
    + rewrite advance_past. by apply IH.
Qed.

(** The case of C7 and C8 that the command line is made of: lists
    separated by commas. *)
Corollary parse_comma_list ts result count :
  ts <> [] -> Forall numeric_literal ts ->
  (length ts <= count)%nat -> (count <= length result)%nat ->
  parse_float_array (join_comma ts) result count
  = (length ts, map atof ts ++ drop (length ts) result).
Proof.
  intros Hne Hall Hk Hlen. unfold parse_float_array.
  rewrite (parse_loop_tokens _ _ (join_comma_tokens _ Hne Hall))
    by (rewrite length_map; simpl; lia).
  by rewrite length_map.
Qed.

Corollary parse_comma_list_malformed ts bad rest result count :
  Forall numeric_literal ts -> snd (strtod bad) = O ->
  (length ts < count)%nat ->
  fst (parse_float_array (join_comma (ts ++ bad :: rest)) result count) = O.
Proof.
  intros Hall Hbad Hlt. unfold parse_float_array.
  by apply (parse_loop_malformed _ _ (join_comma_malformed _ _ _ Hall Hbad)).
Qed.

Example parse_comma_list_ex :
  parse_float_array "160,160.5,-40e1" (replicate 7 0%Q) 7
  = (3%nat, [160%Q; Qmake 321 2; (-400)%Q; 0%Q; 0%Q; 0%Q; 0%Q]).
Proof.
  apply (parse_comma_list ["160"; "160.5"; "-40e1"]); [done| |simpl; lia..].
  repeat constructor; done.
Qed.

(** A comma-separated list of [k <= N] literals supplies [k] positions. *)
Lemma supplied_comma_list N ts :
  ts <> [] -> Forall numeric_literal ts -> (length ts <= N)%nat ->
  supplied N (join_comma ts) = length ts.
Proof.
  intros Hne Hall Hk. unfold supplied.
  rewrite parse_comma_list; [done|done|done|done|].
  by rewrite length_replicate.
Qed.

(** * Further properties of the code *)

(** ** parse_float_array: bounds, failure state, surplus tokens *)

Lemma parse_loop_outside todo : forall i count input result j,
  (j < i \/ i + todo <= j)%nat ->
  snd (parse_loop todo i count input result) !! j = result !! j.
Proof.
  induction todo as [|todo IH]; intros i count input result j Hj; [done|].
  simpl. destruct (strtod input) as [v n].
  destruct n as [|n]; simpl.
  { apply list_lookup_insert_ne; lia. }
  destruct (String.get _ _); simpl.
  - rewrite IH by lia. apply list_lookup_insert_ne; lia.
  - apply list_lookup_insert_ne; lia.
Qed.

Lemma parse_loop_count_bound todo : forall i count input result,
  count = (i + todo)%nat ->
  (fst (parse_loop todo i count input result) <= count)%nat.
Proof.
  induction todo as [|todo IH]; intros i count input result Hc; [done|].
  simpl. destruct (strtod input) as [v n].
  destruct n as [|n]; simpl; [lia|].
  destruct (String.get _ _); simpl; [apply IH|]; lia.
Qed.

(** Whatever the input, the call returns at most [count], keeps the length
    of the array, and writes to none of the positions from [count] on. *)
Theorem parse_float_array_within_capacity input result count :
  (fst (parse_float_array input result count) <= count)%nat
  /\ length (snd (parse_float_array input result count)) = length result
  /\ forall j, (count <= j)%nat ->
       snd (parse_float_array input result count) !! j = result !! j.
Proof.
  unfold parse_float_array. split; [|split].
  - by apply parse_loop_count_bound.
  - apply parse_loop_length.
  - intros j Hj. apply parse_loop_outside. lia.
Qed.

Lemma strtod_bad_in_list bad rest :
  snd (strtod bad) = O -> snd (strtod (join_comma (bad :: rest))) = O.
Proof.
  intros Hbad. destruct rest; [done|].
  rewrite join_comma_cons by done. by rewrite strtod_comma.
Qed.

Lemma parse_loop_comma_malformed bad rest count : forall ts todo i result,
  Forall numeric_literal ts -> snd (strtod bad) = O ->
  (length ts < todo)%nat -> (i + length ts < length result)%nat ->
  parse_loop todo i count (join_comma (ts ++ bad :: rest)) result
  = (O, take i result ++ map atof ts
          ++ 0%Q :: drop (S (i + length ts)) result).
Proof.
  induction ts as [|t ts IH]; intros todo i result Hall Hbad Htodo Hlen;
    (destruct todo as [|todo]; [simpl in Htodo; lia|]); simpl in Htodo, Hlen.
  - simpl app. rewrite parse_loop_fail by by apply strtod_bad_in_list.
    rewrite insert_take_drop by (unfold float in *; lia).
    simpl. by rewrite Nat.add_0_r.
  - apply Forall_cons in Hall as [Ht Hall].
    destruct (numeric_literal_strtod _ Ht) as [E Hne].
    simpl app. rewrite join_comma_cons by (by destruct ts).
    rewrite (parse_loop_next _ _ _ _ _ (atof t) (String.length t) ",");
      [|by rewrite strtod_comma|done|apply get_append_end].
    rewrite advance_past.
    rewrite IH by (rewrite ?length_insert; done || lia).
    f_equal.
    rewrite drop_insert_lt by lia.
    rewrite (take_S_r _ _ (atof t)) by (apply list_lookup_insert_eq; lia).
    rewrite take_insert_ge by lia.
    rewrite <- app_assoc. simpl.
    by replace (S (S (i + length ts))) with (S (i + S (length ts))) by lia.
Qed.

(** The state after a parse error: when the token at position [k < N] of a
    comma-separated list has no numeric prefix, the call returns 0 and the
    array holds the values of the [k] tokens before it, then a zero at
    position [k], then what it held before. *)
Theorem parse_error_partial_writes ts bad rest result count :
  Forall numeric_literal ts -> snd (strtod bad) = O ->
  (length ts < count)%nat -> (count <= length result)%nat ->
  parse_float_array (join_comma (ts ++ bad :: rest)) result count
  = (O, map atof ts ++ 0%Q :: drop (S (length ts)) result).
Proof.
  intros Hall Hbad Hk Hlen. unfold parse_float_array.
  by rewrite (parse_loop_comma_malformed bad rest count ts count 0 result)
    by (done || simpl; lia).
Qed.

Lemma parse_error_partial_writes_witness :
  parse_float_array "1,2,,4" [9%Q; 9%Q; 9%Q; 9%Q; 9%Q] 5
  = (O, [1%Q; 2%Q; 0%Q; 9%Q; 9%Q]).
Proof.
  apply (parse_error_partial_writes ["1"; "2"] "" ["4"]
           [9%Q; 9%Q; 9%Q; 9%Q; 9%Q] 5).
  - repeat constructor; done.
  - reflexivity.
  - simpl; lia.
  - simpl; lia.
Defined.

Lemma string_append_assoc a : forall b c,
  (a +:+ b) +:+ c = a +:+ (b +:+ c).
Proof.
  induction a as [|x a IH]; intros b c; [done|].
  change (String x ((a +:+ b) +:+ c) = String x (a +:+ (b +:+ c))).
  f_equal. apply IH.
Qed.

Lemma join_comma_leading junk : forall ts,
  Forall numeric_literal ts ->
  leading_tokens (length ts) (join_comma ts +:+ String "," junk)
    (map atof ts).
Proof.
  induction ts as [|t ts IH]; intros Hall; [apply leading_none|].
  apply Forall_cons in Hall as [Ht Hall].
  destruct (numeric_literal_strtod _ Ht) as [E Hne].
  simpl length. simpl map.
  destruct ts as [|t2 ts].
  - simpl join_comma.
    eapply leading_more;
      [by rewrite strtod_comma|done|apply get_append_end|apply leading_none].
  - rewrite join_comma_cons by done.
    rewrite string_append_assoc.
    change (String "," (join_comma (t2 :: ts)) +:+ String "," junk)
      with (String "," (join_comma (t2 :: ts) +:+ String "," junk)).
    eapply leading_more;
      [by rewrite strtod_comma|done|apply get_append_end|].
    rewrite advance_past. by apply IH.
Qed.

(** What follows the [N]-th token and its comma is never looked at: a list
    of [N] literals followed by a comma and anything at all parses as the
    list of the [N] literals. *)
Theorem parse_ignores_surplus ts junk result count :
  Forall numeric_literal ts -> length ts = count ->
  (count <= length result)%nat ->
  parse_float_array (join_comma ts +:+ String "," junk) result count
  = (count, map atof ts ++ drop count result).
Proof.
  intros Hall Hk Hlen. unfold parse_float_array. subst count.
  by rewrite (parse_loop_full _ _ _ (join_comma_leading junk ts Hall)
                0 (length ts) result).
Qed.

Lemma parse_ignores_surplus_witness :
  parse_float_array "1,2,3,x,,5" [9%Q; 9%Q; 9%Q] 3
  = (3%nat, [1%Q; 2%Q; 3%Q]).
Proof.
  apply (parse_ignores_surplus ["1"; "2"; "3"] "x,,5" [9%Q; 9%Q; 9%Q] 3).
  - repeat constructor; done.
  - reflexivity.
  - simpl; lia.
Defined.

(** ** The flag loop: what is accepted, and what the locals hold after it *)

Lemma flag_loop_app N : forall opts1 opts2 l,
  flag_loop N l (opts1 ++ opts2)
  = match flag_loop N l opts1 with
    | inl msg => inl msg
    | inr l1 => flag_loop N l1 opts2
    end.
Proof.
  induction opts1 as [|o opts1 IH]; intros opts2 l; [done|].
  simpl. destruct (flag_case N l o); [done|apply IH].
Qed.

Lemma flag_loop_invariant N (P : locals -> Prop) :
  (forall l o l', P l -> flag_case N l o = inr l' -> P l') ->
  forall opts l l', P l -> flag_loop N l opts = inr l' -> P l'.
Proof.
  intros Hstep. induction opts as [|o opts IH]; intros l l' HP E; simpl in E.
  { by injection E as <-. }
  destruct (flag_case N l o) as [msg|l1] eqn:E1; [done|].
  eapply IH; [|exact E]. by eapply Hstep.
Qed.

Section LastWins.

(** A local [g] that only the option [select] assigns, the value being
    [value optarg]. *)
Variable N : nat.
Context {A : Type}.
Variable g : locals -> A.
Variable select : cli_option -> option string.
Variable value : string -> A.

Hypothesis case_assigns : forall l o l',
  flag_case N l o = inr l' ->
  g l' = match select o with Some a => value a | None => g l end.

Lemma flag_loop_last : forall opts l l',
  flag_loop N l opts = inr l' ->
  g l' = match last (omap select opts) with
         | Some a => value a
         | None => g l
         end.
Proof using case_assigns.
  induction opts as [|o opts IH]; intros l l' E; simpl in E.
  { by injection E as <-. }
  destruct (flag_case N l o) as [msg|l1] eqn:E1; [done|].
  rewrite (IH _ _ E).
  change (o :: opts) with ([o] ++ opts). rewrite omap_app, last_app.
  destruct (last (omap select opts)); [done|].
  rewrite (case_assigns _ _ _ E1). simpl. by destruct (select o).
Qed.

End LastWins.

Section Switch.

(** A boolean local [g] that only the option [flag] sets. *)
Variable N : nat.
Variable g : locals -> bool.
Variable flag : cli_option.

Hypothesis case_sets : forall l o l',
  flag_case N l o = inr l' -> (g l' = true <-> g l = true \/ o = flag).

Lemma flag_loop_switch : forall opts l l',
  flag_loop N l opts = inr l' ->
  (g l' = true <-> g l = true \/ flag ∈ opts).
Proof using case_sets.
  induction opts as [|o opts IH]; intros l l' E; simpl in E.
  { injection E as <-. rewrite elem_of_nil. tauto. }
  destruct (flag_case N l o) as [msg|l1] eqn:E1; [done|].
  rewrite (IH _ _ E), (case_sets _ _ _ E1), elem_of_cons.
  split; [intros [[?|?]|?]|intros [?|[?|?]]]; auto.
Qed.

End Switch.








(** After a flag loop that succeeded: the axis mapping is the argument of
    the last [--axis-mapping] option or the compiled-in XYZEA; the listen
    port is the conversion of the last [--port] argument or -1; the bind
    address is the last [--bind-addr] argument or NULL; and the channel
    layout is the compiled-in one, which no option changes. *)
Theorem last_option_wins N opts l :
  flag_loop N (initial_locals N) opts = inr l ->
  axis_mapping (config l) = default kAxisMapping (last (mapping_args opts))
  /\ listen_port l = default (-1) (atoi <$> last (port_args opts))
  /\ bind_addr l = last (bind_args opts)
  /\ channel_layout (config l) = kChannelLayout.
Proof.
  intros E. repeat split.
  - rewrite (flag_loop_last N (fun l => axis_mapping (config l))
               (fun o => match o with
                         | SET_MOTOR_MAPPING a => Some a | _ => None end)
               (fun a => a)) with (l := initial_locals N) (l' := l) (opts := opts);
      [by destruct (last _)| |done].
    intros l0 o l1 E1. flag_cases E1.
  - rewrite (flag_loop_last N listen_port
               (fun o => match o with Opt_p a => Some a | _ => None end)
               atoi) with (l := initial_locals N) (l' := l) (opts := opts);
      [by destruct (last _)| |done].
    intros l0 o l1 E1. flag_cases E1.
  - rewrite (flag_loop_last N bind_addr
               (fun o => match o with Opt_b a => Some a | _ => None end)
               Some) with (l := initial_locals N) (l' := l) (opts := opts);
      [by destruct (last _)| |done].
    intros l0 o l1 E1. flag_cases E1.
  - apply (flag_loop_invariant N
             (fun l => channel_layout (config l) = kChannelLayout))
      with opts (initial_locals N); [|done|done].
    intros l0 o l1 HP E1. flag_cases E1.
Qed.

Lemma last_option_wins_witness :
  exists l,
    flag_loop 7 (initial_locals 7)
      [Opt_p "80"; SET_MOTOR_MAPPING "XY_Z"; Opt_p "8000"; Opt_b "127.0.0.1"]
    = inr l
    /\ axis_mapping (config l) = "XY_Z"
    /\ listen_port l = 8000
    /\ bind_addr l = Some "127.0.0.1"
    /\ channel_layout (config l) = "23140".
Proof.
  destruct (flag_loop 7 (initial_locals 7)
              [Opt_p "80"; SET_MOTOR_MAPPING "XY_Z"; Opt_p "8000";
               Opt_b "127.0.0.1"]) as [msg|l] eqn:E; [by vm_compute in E|].
  exists l. split; [done|].
  exact (last_option_wins 7 _ l E).
Defined.

(** After a flag loop that succeeded, each of the four switches is on
    exactly when its option occurs on the command line. *)
Theorem switches_follow_options N opts l :
  flag_loop N (initial_locals N) opts = inr l ->
  (dry_run (config l) = true <-> Opt_n ∈ opts)
  /\ (debug_print (config l) = true <-> Opt_P ∈ opts)
  /\ (synchronous (config l) = true <-> Opt_S ∈ opts)
  /\ (do_file_repeat l = true <-> Opt_R ∈ opts).
Proof.
  intros E.
  assert (Hsw : forall (g : locals -> bool) flag,
            (forall l0 o l1, flag_case N l0 o = inr l1 ->
                             (g l1 = true <-> g l0 = true \/ o = flag)) ->
            g (initial_locals N) = false ->
            (g l = true <-> flag ∈ opts)).
  { intros g flag Hc H0.
    rewrite (flag_loop_switch N g flag Hc opts _ _ E), H0.
    intuition discriminate. }
  split; [apply (Hsw (fun l => dry_run (config l)) Opt_n)|
  split; [apply (Hsw (fun l => debug_print (config l)) Opt_P)|
  split; [apply (Hsw (fun l => synchronous (config l)) Opt_S)|
          apply (Hsw do_file_repeat Opt_R)]]];
    try done;
    intros l0 o l1 E1; flag_cases E1; split; auto; intros [?|?]; done.
Qed.

Lemma switches_follow_options_witness :
  exists l,
    flag_loop 7 (initial_locals 7) [Opt_S; Opt_m "100"; Opt_R] = inr l
    /\ dry_run (config l) = false
    /\ synchronous (config l) = true
    /\ do_file_repeat l = true.
Proof.
  destruct (flag_loop 7 (initial_locals 7) [Opt_S; Opt_m "100"; Opt_R])
    as [msg|l] eqn:E; [by vm_compute in E|].
  exists l. split; [done|].
  destruct (switches_follow_options 7 _ l E) as (Hn & _ & HS & HR).
  split; [|split].
  - destruct (dry_run (config l)); [|done].
    destruct Hn as [Hn _]. specialize (Hn eq_refl).
    repeat (apply elem_of_cons in Hn as [Hn|Hn]; [discriminate Hn|]).
    by apply elem_of_nil in Hn.
  - apply HS. apply elem_of_cons. by left.
  - apply HR. do 2 (apply elem_of_cons; right). apply elem_of_cons. by left.
Defined.

(** ** The per-axis arrays: lengths, and lists that override lists *)

Lemma array_init_length_eq {A} n (zero : A) xs :
  (length xs <= n)%nat -> length (array_init n zero xs) = n.
Proof. intros H. unfold array_init. rewrite length_app, length_replicate. lia. Qed.

Lemma flag_case_lengths N l o l' :
  flag_case N l o = inr l' ->
  length (steps_per_mm (config l')) = length (steps_per_mm (config l))
  /\ length (max_feedrate (config l')) = length (max_feedrate (config l))
  /\ length (acceleration (config l')) = length (acceleration (config l))
  /\ length (move_range_mm (config l')) = length (move_range_mm (config l))
  /\ length (home_switch (config l')) = length (home_switch (config l)).
Proof.
  intros E. flag_cases E; repeat split; try done;
    try apply narrow_loop_length;
    match goal with
    | H : parse_float_array ?a ?r N = (_, ?x) |- length ?x = _ =>
        pose proof (parse_float_array_length N a r) as Hl;
        rewrite H in Hl; exact Hl
    end.
Qed.




Section Override.

(** A per-axis float array [field] and the option [mk] that parses its
    list into it. *)
Variable N : nat.
Variable field : MachineControlConfig -> list float.
Variable mk : string -> cli_option.
Variable select : cli_option -> option string.
Variable i : nat.

Hypothesis case_keeps : forall l opt l',
  flag_case N l opt = inr l' ->
  not_supplied N (omap select [opt]) i ->
  field (config l') !! i = field (config l) !! i.
Hypothesis case_override : forall l a l',
  flag_case N l (mk a) = inr l' ->
  field (config l') = snd (parse_float_array a (field (config l)) N).
Hypothesis case_length : forall l opt l',
  flag_case N l opt = inr l' ->
  length (field (config l')) = length (field (config l)).

Lemma flag_loop_override opts1 opts2 ts l0 l :
  flag_loop N l0 (opts1 ++ mk (join_comma ts) :: opts2) = inr l ->
  (N <= length (field (config l0)))%nat ->
  Forall numeric_literal ts -> (i < length ts <= N)%nat ->
  not_supplied N (omap select opts2) i ->
  field (config l) !! i = atof <$> ts !! i.
Proof using case_keeps case_override case_length.
  intros E Hlen Hall Hi Hns.
  rewrite flag_loop_app in E.
  destruct (flag_loop N l0 opts1) as [msg|l1] eqn:E1; [done|].
  simpl in E.
  destruct (flag_case N l1 (mk (join_comma ts))) as [msg|l2] eqn:E2; [done|].
  rewrite (flag_loop_keeps N field select i case_keeps _ _ _ E Hns).
  rewrite (case_override _ _ _ E2).
  assert (Hl1 : (N <= length (field (config l1)))%nat).
  { apply (flag_loop_invariant N
             (fun l => (N <= length (field (config l)))%nat))
      with opts1 l0; [|done|done].
    intros la o lb Hp Hc. by rewrite (case_length _ _ _ Hc). }
  rewrite parse_comma_list; [|by destruct ts; simpl in *; [lia|]|done|lia|done].
  simpl. rewrite lookup_app_l by (rewrite length_map; lia).
  apply list_lookup_fmap.
Qed.

End Override.

(** A later list overrides an earlier one position by position: after the
    flag loop, a position holds the value that the last list supplying it
    gave for it. *)
Theorem later_list_overrides N opts1 opts2 ts i :
  Forall numeric_literal ts -> (i < length ts <= N)%nat ->
  (forall l,
     flag_loop N (initial_locals N) (opts1 ++ Opt_m (join_comma ts) :: opts2)
     = inr l ->
     not_supplied N (feedrate_lists opts2) i ->
     max_feedrate (config l) !! i = atof <$> ts !! i)
  /\ (forall l,
        flag_loop N (initial_locals N)
          (opts1 ++ Opt_a (join_comma ts) :: opts2) = inr l ->
        not_supplied N (accel_lists opts2) i ->
        acceleration (config l) !! i = atof <$> ts !! i)
  /\ (forall l,
        flag_loop N (initial_locals N)
          (opts1 ++ SET_STEPS_MM (join_comma ts) :: opts2) = inr l ->
        not_supplied N (steps_lists opts2) i ->
        steps_per_mm (config l) !! i = atof <$> ts !! i)
  /\ (forall l,
        flag_loop N (initial_locals N)
          (opts1 ++ Opt_r (join_comma ts) :: opts2) = inr l ->
        not_supplied N (range_lists opts2) i ->
        move_range_mm (config l) !! i = atof <$> ts !! i).
Proof.
  intros Hall Hi. repeat split; intros l E Hns.
  - apply (flag_loop_override N max_feedrate Opt_m _ i
             (flag_case_feedrate N i)) with opts1 opts2 (initial_locals N);
      try done; try apply array_init_length.
    + intros l0 a l1 E1. flag_cases E1.
    + intros l0 o l1 E1. by destruct (flag_case_lengths _ _ _ _ E1) as (_&?&_).
  - apply (flag_loop_override N acceleration Opt_a _ i
             (flag_case_accel N i)) with opts1 opts2 (initial_locals N);
      try done; try apply array_init_length.
    + intros l0 a l1 E1. flag_cases E1.
    + intros l0 o l1 E1.
      by destruct (flag_case_lengths _ _ _ _ E1) as (_&_&?&_).
  - apply (flag_loop_override N steps_per_mm SET_STEPS_MM _ i
             (flag_case_steps N i)) with opts1 opts2 (initial_locals N);
      try done; try apply array_init_length.
    + intros l0 a l1 E1. flag_cases E1.
    + intros l0 o l1 E1. by destruct (flag_case_lengths _ _ _ _ E1) as (?&_).
  - apply (flag_loop_override N move_range_mm Opt_r _ i
             (flag_case_range N i)) with opts1 opts2 (initial_locals N);
      try done; try apply array_init_length.
    + intros l0 a l1 E1. flag_cases E1.
    + intros l0 o l1 E1.
      by destruct (flag_case_lengths _ _ _ _ E1) as (_&_&_&?&_).
Qed.

Lemma later_list_overrides_witness :
  exists l,
    flag_loop 7 (initial_locals 7) [Opt_m "1,2,3"; Opt_m "5"] = inr l
    /\ max_feedrate (config l) !! 1%nat = Some 2%Q.
Proof.
  destruct (flag_loop 7 (initial_locals 7) [Opt_m "1,2,3"; Opt_m "5"])
    as [msg|l] eqn:E; [by vm_compute in E|].
  exists l. split; [done|].
  assert (Hall : Forall numeric_literal ["1"; "2"; "3"]).
  { repeat constructor; done. }
  assert (Hi : (1 < length ["1"; "2"; "3"] <= 7)%nat) by (simpl; lia).
  destruct (later_list_overrides 7 [] [Opt_m "5"] ["1"; "2"; "3"] 1 Hall Hi)
    as (H & _).
  apply (H l E). repeat constructor.
Defined.

(** ** --home-pos *)





(** ** The runners: what they do and what they return *)

Lemma count_events_zero p tr :
  Forall (fun e => p e = false) tr -> count_events p tr = O.
Proof.
  unfold count_events. induction 1 as [|e tr He _ IH]; [done|].
  rewrite filter_cons. case_decide; [congruence|done].
Qed.

Lemma count_events_cons p e tr :
  count_events p (e :: tr)
  = ((if p e then 1 else 0) + count_events p tr)%nat.
Proof.
  unfold count_events. rewrite filter_cons.
  destruct (p e); case_decide; simpl; congruence.
Qed.

Lemma send_file_loop_events w f do_loop : forall fuel k,
  Forall (file_event f) (fst (send_file_loop fuel k w f do_loop)).
Proof.
  induction fuel as [|fuel IH]; intros k; simpl; [constructor|].
  destruct (w_stream w k =? 0); [destruct do_loop|].
  - specialize (IH (S k)).
    destruct (send_file_loop fuel (S k) w f true) as [tr ret]. simpl in *.
    by repeat constructor.
  - by repeat constructor.
  - by repeat constructor.
Qed.


Lemma send_file_loop_result w f do_loop : forall fuel k,
  match snd (send_file_loop fuel k w f do_loop) with
  | None => True
  | Some v => v = 1 \/ (v = 0 /\ do_loop = false)
  end.
Proof.
  induction fuel as [|fuel IH]; intros k; simpl; [done|].
  destruct (w_stream w k =? 0); [destruct do_loop|]; simpl; auto.
  specialize (IH (S k)).
  by destruct (send_file_loop fuel (S k) w f true) as [tr ret].
Qed.


Lemma accept_loop_events w s : forall fuel k,
  Forall (server_event s) (fst (accept_loop fuel k w s)).
Proof.
  induction fuel as [|fuel IH]; intros k; [constructor|].
  rewrite accept_loop_S.
  destruct (w_accept w k <? 0) eqn:Ec; [by repeat constructor|].
  assert (0 <= w_accept w k) by lia.
  cbv zeta. destruct (w_stream w k =? 0).
  - specialize (IH (S k)).
    destruct (accept_loop fuel (S k) w s) as [tr e]. simpl in *.
    by repeat constructor.
  - by repeat constructor.
Qed.

Lemma accept_loop_end w s : forall fuel k,
  match snd (accept_loop fuel k w s) with
  | StillRunning => True
  | Returned v =>
      v = 1
      /\ last (fst (accept_loop fuel k w s)) = Some (EvPerror "accept")
  | Exited r => r <> 0
  end.
Proof.
  induction fuel as [|fuel IH]; intros k; [done|].
  rewrite accept_loop_S.
  destruct (w_accept w k <? 0); [done|].
  cbv zeta. destruct (w_stream w k =? 0) eqn:Er; [|simpl; lia].
  specialize (IH (S k)).
  destruct (accept_loop fuel (S k) w s) as [tr [|v|r]]; simpl in *;
    [done| |done].
  destruct IH as [-> Hl]. split; [done|].
  destruct tr as [|x tr]; [done|]. exact Hl.
Qed.

Lemma run_server_events fuel w bind_addr port :
  Forall (server_event (w_socket w)) (fst (run_server fuel w bind_addr port)).
Proof.
  unfold run_server.
  destruct (65535 <? port); [by repeat constructor|].
  destruct (w_socket w <? 0); [by repeat constructor|].
  destruct (bad_bind_addr w bind_addr); [by repeat constructor|].
  destruct (w_bind w <? 0); [by repeat constructor|].
  pose proof (accept_loop_events w (w_socket w) fuel 0) as H.
  destruct (accept_loop fuel 0 w (w_socket w)) as [tr [| |]]; simpl in *;
    repeat (constructor; [done|]); try done.
  apply Forall_app. split; [done|]. by repeat constructor.
Qed.


Lemma accept_loop_no_close w s : forall fuel k,
  count_events is_close (fst (accept_loop fuel k w s)) = O.
Proof.
  induction fuel as [|fuel IH]; intros k; [done|].
  rewrite accept_loop_S.
  destruct (w_accept w k <? 0); [done|].
  cbv zeta. destruct (w_stream w k =? 0); [|done].
  specialize (IH (S k)).
  destruct (accept_loop fuel (S k) w s) as [tr e]. simpl in *.
  by rewrite !count_events_cons.
Qed.

Lemma accept_loop_exited w s : forall fuel k r,
  snd (accept_loop fuel k w s) = Exited r ->
  EvStreamEnd r ∈ fst (accept_loop fuel k w s).
Proof.
  induction fuel as [|fuel IH]; intros k r; [done|].
  rewrite accept_loop_S.
  destruct (w_accept w k <? 0); [done|].
  cbv zeta. destruct (w_stream w k =? 0).
  - specialize (IH (S k) r).
    destruct (accept_loop fuel (S k) w s) as [tr e]. simpl in *.
    intros He. do 5 (apply elem_of_cons; right). by apply IH.
  - simpl. intros [= <-]. do 3 (apply elem_of_cons; right).
    apply elem_of_cons. by left.
Qed.

(** When the setup of [run_server] fails (a port above 65535, no socket,
    a bind address that is not an IPv4 address, or a failing bind) the
    function returns 1 before it accepts any connection: the engine is
    not called, and the socket, if one was created, is not closed. A port
    above 65535 is refused before any system call. *)
Theorem server_setup_failure w bind_addr port :
  setup_ok w bind_addr port = false ->
  exists tr,
    (forall fuel, run_server fuel w bind_addr port = (tr, Some 1))
    /\ count_events is_accept tr = O
    /\ count_events is_stream_begin tr = O
    /\ count_events is_close tr = O
    /\ (65535 < port -> tr = [EvInvalidPort port]).
Proof.
  unfold setup_ok, run_server. intros H.
  destruct (65535 <? port) eqn:Ep.
  { eexists. split; [done|]. by repeat split. }
  destruct (w_socket w <? 0).
  { eexists. split; [done|]. repeat split; try done. lia. }
  destruct (bad_bind_addr w bind_addr).
  { eexists. split; [done|]. repeat split; try done. lia. }
  destruct (w_bind w <? 0); [|done].
  eexists. split; [done|]. repeat split; try done. lia.
Qed.

Lemma server_setup_failure_witness :
  run_server 3 (example_world (fun _ => 0)) None 70000
  = ([EvInvalidPort 70000], Some 1).
Proof.
  destruct (server_setup_failure (example_world (fun _ => 0)) None 70000
              eq_refl) as (tr & Hrun & _ & _ & _ & Hport).
  rewrite Hrun. by rewrite Hport.
Defined.

Lemma run_server_result fuel w bind_addr port :
  match snd (run_server fuel w bind_addr port) with
  | None => True
  | Some v =>
      (v = 0
       /\ exists r,
            r <> 0
            /\ EvStreamEnd r ∈ fst (run_server fuel w bind_addr port)
            /\ last (fst (run_server fuel w bind_addr port))
               = Some (EvLastResult r)
            /\ count_events is_close (fst (run_server fuel w bind_addr port))
               = 1%nat)
      \/ (v = 1
          /\ count_events is_close (fst (run_server fuel w bind_addr port))
             = O)
  end.
Proof.
  unfold run_server.
  destruct (65535 <? port); [by right|].
  destruct (w_socket w <? 0); [by right|].
  destruct (bad_bind_addr w bind_addr); [by right|].
  destruct (w_bind w <? 0); [by right|].
  pose proof (accept_loop_end w (w_socket w) fuel 0) as Hend.
  pose proof (accept_loop_no_close w (w_socket w) fuel 0) as Hclose.
  pose proof (accept_loop_exited w (w_socket w) fuel 0) as Hex.
  cbv zeta.
  destruct (accept_loop fuel 0 w (w_socket w)) as [tr [|v|r]];
    cbn [fst snd] in *.
  - done.
  - right. destruct Hend as [-> _]. split; [done|].
    by rewrite !count_events_app, Hclose.
  - left. split; [done|]. exists r. split; [done|]. split; [|split].
    + apply elem_of_app. right. apply elem_of_app. left. by apply Hex.
    + by rewrite !last_app.
    + by rewrite !count_events_app, Hclose.
Qed.



Lemma accept_loop_forever w s : forall fuel k,
  (forall j, 0 <= w_accept w j) -> (forall j, w_stream w j = 0) ->
  exists tr,
    accept_loop fuel k w s = (tr, StillRunning)
    /\ count_events is_accept tr = fuel
    /\ count_events is_stream_begin tr = fuel.
Proof.
  induction fuel as [|fuel IH]; intros k Ha Hs; [by exists []|].
  destruct (IH (S k) Ha Hs) as (tr & E & H1 & H2).
  rewrite accept_loop_S.
  pose proof (Ha k). replace (w_accept w k <? 0) with false by lia.
  cbv zeta. rewrite Hs, E. simpl.
  eexists. split; [reflexivity|].
  rewrite !count_events_cons, H1, H2. done.
Qed.

(** A server whose setup succeeds does not return as long as every accept
    succeeds and every session ends with engine result 0: for every [n] the
    run reaches [n] accepted and served connections and has not
    returned. *)
Theorem server_runs_while_sessions_succeed w bind_addr port :
  setup_ok w bind_addr port = true ->
  (forall j, 0 <= w_accept w j) -> (forall j, w_stream w j = 0) ->
  forall n, exists tr,
    run_server n w bind_addr port = (tr, None)
    /\ count_events is_accept tr = n
    /\ count_events is_stream_begin tr = n.
Proof.
  unfold setup_ok. intros Hok Ha Hs n.
  apply andb_prop in Hok as [Hok H4]. apply andb_prop in Hok as [Hok H3].
  apply andb_prop in Hok as [H1 H2].
  unfold run_server.
  apply negb_true_iff in H1, H2, H3, H4. rewrite H1, H2, H3, H4.
  destruct (accept_loop_forever w (w_socket w) n 0 Ha Hs) as (tr & -> & Hc1 & Hc2).
  eexists. split; [reflexivity|].
  rewrite !count_events_app. simpl. rewrite Hc1, Hc2. done.
Qed.

Lemma server_runs_while_sessions_succeed_witness :
  exists tr,
    run_server 5 (example_world (fun _ => 0)) (Some "127.0.0.1") 8000
    = (tr, None)
    /\ count_events is_accept tr = 5%nat
    /\ count_events is_stream_begin tr = 5%nat.
Proof.
  apply (server_runs_while_sessions_succeed (example_world (fun _ => 0))
           (Some "127.0.0.1") 8000 eq_refl).
  - intros j. simpl. lia.
  - intros j. reflexivity.
Defined.

(** ** main: exit code, usage errors, the life cycle of the engine *)

(** The three ways a run of [main] can go. *)
Lemma main_cases N fuel w opts positional :
  (exists msg, main N fuel w opts positional = ([EvUsage msg], Some 1))
  \/ (exists l r,
        flag_loop N (initial_locals N) opts = inr l /\ r <> 0
        /\ main N fuel w opts positional = ([EvInit (config l) r], Some 1))
  \/ (exists l rtr ret,
        flag_loop N (initial_locals N) opts = inr l
        /\ ((exists f rest,
               positional = f :: rest
               /\ send_file_to_machine fuel w f (do_file_repeat l)
                  = (rtr, ret))
            \/ (positional = []
                /\ run_server fuel w (bind_addr l) (listen_port l)
                   = (rtr, ret)))
        /\ main N fuel w opts positional
           = (EvInit (config l) 0
                :: rtr ++ match ret with Some _ => [EvExit] | None => [] end,
              ret)).
Proof.
  unfold main.
  destruct (flag_loop N (initial_locals N) opts) as [msg|l] eqn:E;
    [left; by eexists|].
  unfold main_dispatch.
  destruct (Z.lxor _ _ =? 0); [left; by eexists|].
  destruct (_ && _); [left; by eexists|].
  cbv zeta. destruct (w_init w (config l) =? 0) eqn:Ei; simpl.
  - right. right. apply Z.eqb_eq in Ei. rewrite Ei.
    destruct positional as [|f rest].
    + destruct (run_server _ _ _ _) as [rtr ret] eqn:Er.
      exists l, rtr, ret. split; [done|]. split; [by right|].
      destruct ret; by rewrite ?app_nil_r.
    + destruct (send_file_to_machine _ _ _ _) as [rtr ret] eqn:Er.
      exists l, rtr, ret. split; [done|]. split; [left; by eauto|].
      destruct ret; by rewrite ?app_nil_r.
  - right. left. exists l, (w_init w (config l)).
    split; [done|]. split; [lia|done].
Qed.

Lemma send_file_result_01 fuel w f do_loop v :
  snd (send_file_to_machine fuel w f do_loop) = Some v -> v = 0 \/ v = 1.
Proof.
  intros E. pose proof (send_file_loop_result w f do_loop fuel 0) as H.
  unfold send_file_to_machine in E. rewrite E in H. tauto.
Qed.

Lemma run_server_result_01 fuel w bind_addr port v :
  snd (run_server fuel w bind_addr port) = Some v -> v = 0 \/ v = 1.
Proof.
  intros E. pose proof (run_server_result fuel w bind_addr port) as H.
  rewrite E in H. tauto.
Qed.

(** Whenever [main] returns, it returns 0 or 1. *)
Theorem main_exit_code N fuel w opts positional v :
  snd (main N fuel w opts positional) = Some v -> v = 0 \/ v = 1.
Proof.
  destruct (main_cases N fuel w opts positional)
    as [(msg & ->)|[(l & r & _ & _ & ->)|(l & rtr & ret & _ & Hrun & ->)]];
    simpl; [intros [= <-]; by right..|].
  intros ->.
  destruct Hrun as [(f & rest & _ & Hr)|[_ Hr]].
  - apply (send_file_result_01 fuel w f (do_file_repeat l)). by rewrite Hr.
  - apply (run_server_result_01 fuel w (bind_addr l) (listen_port l)).
    by rewrite Hr.
Qed.

Lemma main_exit_code_witness :
  snd (main 7 2 (example_world (fun _ => -3)) [] ["a.gcode"]) = Some 1.
Proof.
  destruct (main_exit_code 7 2 (example_world (fun _ => -3)) [] ["a.gcode"]
              1 eq_refl) as [H|H]; [discriminate H|reflexivity].
Defined.

Lemma runner_events fuel w l positional rtr ret :
  (exists f rest,
     positional = f :: rest
     /\ send_file_to_machine fuel w f (do_file_repeat l) = (rtr, ret))
  \/ (positional = []
      /\ run_server fuel w (bind_addr l) (listen_port l) = (rtr, ret)) ->
  Forall (fun e => is_usage e = false /\ is_init e = false
                   /\ is_exit e = false) rtr.
Proof.
  intros [(f & rest & _ & Hr)|[_ Hr]].
  - pose proof (send_file_loop_events w f (do_file_repeat l) fuel 0) as H.
    unfold send_file_to_machine in Hr. rewrite Hr in H.
    eapply Forall_impl; [exact H|]. by intros [].
  - pose proof (run_server_events fuel w (bind_addr l) (listen_port l)) as H.
    rewrite Hr in H.
    eapply Forall_impl; [exact H|]. by intros [].
Qed.

(** A usage error stands alone: when [main] prints a usage message, it
    has done nothing before, does nothing after, and returns 1; the engine
    is not initialised, no file is opened and no socket is created. *)
Theorem usage_error_stands_alone N fuel w opts positional msg :
  EvUsage msg ∈ fst (main N fuel w opts positional) ->
  main N fuel w opts positional = ([EvUsage msg], Some 1).
Proof.
  destruct (main_cases N fuel w opts positional)
    as [(m & ->)|[(l & r & _ & _ & ->)|(l & rtr & ret & _ & Hrun & ->)]];
    simpl; intros Hin.
  - apply list_elem_of_singleton in Hin. by injection Hin as ->.
  - by apply list_elem_of_singleton in Hin.
  - apply elem_of_cons in Hin as [Hin|Hin]; [done|].
    apply elem_of_app in Hin as [Hin|Hin].
    + pose proof (runner_events _ _ _ _ _ _ Hrun) as H.
      rewrite Forall_forall in H. by destruct (H _ Hin) as [? _].
    + destruct ret; [by apply list_elem_of_singleton in Hin|].
      by apply elem_of_nil in Hin.
Qed.

Lemma usage_error_stands_alone_witness :
  main 7 3 (example_world (fun _ => 0)) [Opt_f "0"; Opt_p "8000"] []
  = ([EvUsage "Speedfactor cannot be <= 0"], Some 1).
Proof.
  apply usage_error_stands_alone. vm_compute.
  apply list_elem_of_singleton. reflexivity.
Defined.

(** When the initialisation of the engine fails, [main] returns 1 at
    once: no file is opened, no socket is created, no stream is processed,
    and the engine is not shut down. *)
Theorem init_failure_is_fatal N fuel w opts positional cfg r :
  EvInit cfg r ∈ fst (main N fuel w opts positional) -> r <> 0 ->
  main N fuel w opts positional = ([EvInit cfg r], Some 1).
Proof.
  destruct (main_cases N fuel w opts positional)
    as [(m & ->)|[(l & r' & _ & _ & ->)|(l & rtr & ret & _ & Hrun & ->)]];
    simpl; intros Hin Hr.
  - by apply list_elem_of_singleton in Hin.
  - apply list_elem_of_singleton in Hin. by injection Hin as -> ->.
  - apply elem_of_cons in Hin as [Hin|Hin]; [by injection Hin as -> ->|].
    apply elem_of_app in Hin as [Hin|Hin].
    + pose proof (runner_events _ _ _ _ _ _ Hrun) as H.
      rewrite Forall_forall in H. by destruct (H _ Hin) as (_ & ? & _).
    + destruct ret; [by apply list_elem_of_singleton in Hin|].
      by apply elem_of_nil in Hin.
Qed.

Lemma init_failure_is_fatal_witness :
  main 7 3 (mkWorld (fun _ => 1) (fun _ => 3) (fun _ => 0) 3 (fun _ => 1) 0
              (fun _ => 4)) [Opt_n] ["a.gcode"]
  = ([EvInit (set_dry_run true (config (initial_locals 7))) 1], Some 1).
Proof.
  apply init_failure_is_fatal; [|done].
  vm_compute. apply list_elem_of_singleton. reflexivity.
Defined.

(** The engine is initialised at most once, before anything else; it is
    shut down at most once, as the last thing, and exactly in the runs in
    which the initialisation succeeded and the runner came back. *)
Theorem engine_life_cycle N fuel w opts positional :
  let tr := fst (main N fuel w opts positional) in
  let ret := snd (main N fuel w opts positional) in
  (count_events is_init tr <= 1)%nat
  /\ (forall cfg r, EvInit cfg r ∈ tr -> head tr = Some (EvInit cfg r))
  /\ (EvExit ∈ tr ->
      last tr = Some EvExit /\ count_events is_exit tr = 1%nat
      /\ exists cfg v, head tr = Some (EvInit cfg 0) /\ ret = Some v)
  /\ (forall cfg v,
        head tr = Some (EvInit cfg 0) -> ret = Some v ->
        last tr = Some EvExit).
Proof.
  destruct (main_cases N fuel w opts positional)
    as [(m & ->)|[(l & r' & _ & Hr & ->)|(l & rtr & ret & _ & Hrun & ->)]];
    cbn [fst snd].
  - split; [vm_compute; lia|]. split; [|split].
    + intros cfg r Hin. by apply list_elem_of_singleton in Hin.
    + intros Hin. by apply list_elem_of_singleton in Hin.
    + done.
  - split; [vm_compute; lia|]. split; [|split].
    + intros cfg r Hin. apply list_elem_of_singleton in Hin. by rewrite Hin.
    + intros Hin. by apply list_elem_of_singleton in Hin.
    + intros cfg v [= _ Hz]. done.
  - pose proof (runner_events _ _ _ _ _ _ Hrun) as Hev.
    assert (Hi : count_events is_init rtr = O).
    { apply count_events_zero. eapply Forall_impl; [exact Hev|]. tauto. }
    assert (He : count_events is_exit rtr = O).
    { apply count_events_zero. eapply Forall_impl; [exact Hev|]. tauto. }
    rewrite Forall_forall in Hev.
    split; [|split; [|split]].
    + rewrite count_events_cons, count_events_app, Hi. by destruct ret.
    + intros cfg r Hin. apply elem_of_cons in Hin as [->|Hin]; [done|].
      apply elem_of_app in Hin as [Hin|Hin].
      * by destruct (Hev _ Hin) as (_ & ? & _).
      * destruct ret; [by apply list_elem_of_singleton in Hin|].
        by apply elem_of_nil in Hin.
    + intros Hin. apply elem_of_cons in Hin as [?|Hin]; [done|].
      apply elem_of_app in Hin as [Hin|Hin].
      { by destruct (Hev _ Hin) as (_ & _ & ?). }
      destruct ret as [v|]; [|by apply elem_of_nil in Hin].
      split; [|split].
      * change (?a :: rtr ++ ?b) with ([a] ++ rtr ++ b). by rewrite !last_app.
      * rewrite count_events_cons, count_events_app, He. done.
      * by eauto.
    + intros cfg v _ ->.
      change (?a :: rtr ++ ?b) with ([a] ++ rtr ++ b). by rewrite !last_app.
Qed.

(** The two modes exclude each other in what they do: a run with a
    filename creates no socket and accepts no connection, and a run
    without one opens no file. *)
Theorem modes_are_exclusive N fuel w opts positional :
  let tr := fst (main N fuel w opts positional) in
  (positional <> [] ->
   count_events is_socket tr = O /\ count_events is_accept tr = O)
  /\ (positional = [] -> count_events is_open tr = O).
Proof.
  destruct (main_cases N fuel w opts positional)
    as [(m & ->)|[(l & r' & _ & Hr & ->)|(l & rtr & ret & _ & Hrun & ->)]];
    cbn [fst snd]; [by split..|].
  destruct Hrun as [(f & rest & -> & Hr)|[-> Hr]].
  - split; [intros _|done].
    pose proof (send_file_loop_events w f (do_file_repeat l) fuel 0) as H.
    unfold send_file_to_machine in Hr. rewrite Hr in H. simpl in H.
    rewrite !count_events_cons, !count_events_app.
    rewrite (count_events_zero is_socket rtr),
      (count_events_zero is_accept rtr);
      [by destruct ret|eapply Forall_impl; [exact H|]; by intros []..].
  - split; [done|intros _].
    pose proof (run_server_events fuel w (bind_addr l) (listen_port l)) as H.
    rewrite Hr in H. simpl in H.
    rewrite !count_events_cons, !count_events_app.
    rewrite (count_events_zero is_open rtr);
      [by destruct ret|eapply Forall_impl; [exact H|]; by intros []].
Qed.

Lemma modes_are_exclusive_witness :
  count_events is_socket
    (fst (main 7 3 (example_world (fun _ => 0)) [Opt_R] ["a.gcode"])) = O
  /\ count_events is_open
       (fst (main 7 3 (example_world (fun _ => 0)) [Opt_p "8000"] [])) = O.
Proof.
  split.
  - destruct (modes_are_exclusive 7 3 (example_world (fun _ => 0)) [Opt_R]
                ["a.gcode"]) as [H _].
    by destruct H.
  - destruct (modes_are_exclusive 7 3 (example_world (fun _ => 0))
                [Opt_p "8000"] []) as [_ H].
    by apply H.
Defined.

(** A port above 65535 is found only by [run_server]: in network mode the
    engine has been initialised by then, and it is shut down again before
    [main] returns 1. *)
Theorem invalid_port_after_init N fuel w opts l :
  flag_loop N (initial_locals N) opts = inr l ->
  65535 < listen_port l -> do_file_repeat l = false ->
  w_init w (config l) = 0 ->
  main N fuel w opts []
  = ([EvInit (config l) 0; EvInvalidPort (listen_port l); EvExit], Some 1).
Proof.
  intros E Hp Hr Hi. unfold main. rewrite E.
  rewrite dispatch_network by (done || lia).
  cbv zeta. rewrite Hi. simpl. unfold run_server.
  by replace (65535 <? listen_port l) with true by lia.
Qed.

Lemma invalid_port_after_init_witness :
  main 7 3 (example_world (fun _ => 0)) [Opt_p "70000"] []
  = ([EvInit (config (initial_locals 7)) 0; EvInvalidPort 70000; EvExit],
     Some 1).
Proof.
  destruct (flag_loop 7 (initial_locals 7) [Opt_p "70000"])
    as [msg|l] eqn:E; [by vm_compute in E|].
  pose proof (invalid_port_after_init 7 3 (example_world (fun _ => 0))
                [Opt_p "70000"] l E) as H.
  vm_compute in E. injection E as <-.
  apply H; [by vm_compute|reflexivity|reflexivity].
Defined.
